(** * Response serialisation of the routing service: OpenLR references and
      the protobuf field selector (tyr serializers).

    A shallow embedding of [road_class_to_fow], [openlr_edges],
    [route_references], [openlr] and [serializePbf], together with the
    properties of these functions that the specification relies on. *)

From stdpp Require Import base option list strings gmap.
From Stdlib Require Import ZArith.

Set Default Proof Using "Type".

(** ** Enumerations *)

(** [OpenLR::LocationReferencePoint::FormOfWay]. *)
Inductive FormOfWay :=
  | UNDEFINED
  | MOTORWAY
  | MULTIPLE_CARRIAGEWAY
  | SINGLE_CARRIAGEWAY
  | ROUNDABOUT
  | TRAFFICSQUARE
  | SLIPROAD
  | OTHER.

(** [TripLeg::Traversability]. *)
Inductive Traversability := kNone | kForward | kBackward | kBoth.

(** [TripLeg::Use].  The serializer only names the ramp and the turn
    channel; [kUse_other] stands for every other enumerator. *)
Inductive Use := kRampUse | kTurnChannelUse | kUse_other (tag : nat).

(** [Options::Action].  The enumerators are the ones the serializer names;
    [Options_other_action] stands for every other enumerator of the enumeration. *)
Inductive Action :=
  | Options_route
  | Options_centroid
  | Options_optimized_route
  | Options_trace_route
  | Options_trace_attributes
  | Options_status
  | Options_sources_to_targets
  | Options_other_action (tag : nat).

#[global] Instance FormOfWay_eq_dec : EqDecision FormOfWay.
Proof. solve_decision. Defined.
#[global] Instance Traversability_eq_dec : EqDecision Traversability.
Proof. solve_decision. Defined.
#[global] Instance Use_eq_dec : EqDecision Use.
Proof. solve_decision. Defined.
#[global] Instance Action_eq_dec : EqDecision Action.
Proof. solve_decision. Defined.

(** ** Request options *)

(** [PbfFieldSelector]: which top-level parts of the response are kept. *)
Record PbfFieldSelector := mkPbfFieldSelector {
  sel_options : bool;
  sel_trip : bool;
  sel_directions : bool;
  sel_status : bool;
  sel_matrix : bool;
}.

(** A default-constructed selector keeps nothing. *)
Definition PbfFieldSelector_default : PbfFieldSelector :=
  mkPbfFieldSelector false false false false false.

Definition set_trip (b : bool) (s : PbfFieldSelector) : PbfFieldSelector :=
  mkPbfFieldSelector (sel_options s) b (sel_directions s) (sel_status s) (sel_matrix s).
Definition set_directions (b : bool) (s : PbfFieldSelector) : PbfFieldSelector :=
  mkPbfFieldSelector (sel_options s) (sel_trip s) b (sel_status s) (sel_matrix s).
Definition set_status (b : bool) (s : PbfFieldSelector) : PbfFieldSelector :=
  mkPbfFieldSelector (sel_options s) (sel_trip s) (sel_directions s) b (sel_matrix s).
Definition set_matrix (b : bool) (s : PbfFieldSelector) : PbfFieldSelector :=
  mkPbfFieldSelector (sel_options s) (sel_trip s) (sel_directions s) (sel_status s) b.

(** The fields of [Options] that the serializers read.  A message-typed
    field is optional: [None] is an unset field. *)
Record Options := mkOptions {
  action : Action;
  linear_references : bool;
  pbf_field_selector_ : option PbfFieldSelector;
}.

Definition has_pbf_field_selector (o : Options) : bool :=
  bool_decide (is_Some (pbf_field_selector_ o)).

(** The accessor of an unset message field yields the default instance. *)
Definition pbf_field_selector (o : Options) : PbfFieldSelector :=
  default PbfFieldSelector_default (pbf_field_selector_ o).

(** [Info]: only the service flag is read here. *)
Record Info := mkInfo { is_service : bool }.

Definition Info_default : Info := mkInfo false.

(** ** Exceptions *)

Inductive exception := logic_error (what : string).

(** How a call ends: it returns a value or throws. *)
Inductive outcome (A : Type) :=
  | Returns (a : A)
  | Throws (e : exception).
Arguments Returns {A} a.
Arguments Throws {A} e.

(** ** Trip data and OpenLR values *)

(** The types this file leaves open.  Floating point values are kept
    abstract: the serializer only moves them around, except for one
    product.  [Directions], [Status] and [Matrix] are the payloads that
    [serializePbf] only keeps or clears. *)
Class Payloads := {
  float : Type;
  Directions : Type;
  Status : Type;
  Matrix : Type;
}.

Section Messages.

Context `{Payloads}.

Record PointLL := mkPointLL { lng : float; lat : float }.

(** [TripLeg::Edge].  [road_class] is the integer value of the enumerator,
    as the message stores it. *)
Record Edge := mkEdge {
  roundabout : bool;
  use : Use;
  road_class : Z;
  traversability : Traversability;
  length_km : float;
  begin_shape_index : nat;
  end_shape_index : nat;
}.

(** [TripLeg::Node]: [has_edge] is [is_Some (edge node)]. *)
Record Node := mkNode { edge : option Edge }.

Record TripLeg := mkTripLeg { shape : string; node : list Node }.
Record TripRoute := mkTripRoute { legs : list TripLeg }.
Record Trip := mkTrip { routes : list TripRoute }.

(** The arguments handed to the constructor of a location reference point.
    [lrp_prev] is the point the new one refers back to; [lrp_distance] and
    [lrp_lfrcnp] are [None] when the call leaves them out. *)
#[warnings="-register-all"]
Inductive LocationReferencePoint := mkLRP {
  lrp_longitude : float;
  lrp_latitude : float;
  lrp_bearing : float;
  lrp_frc : Z;
  lrp_fow : FormOfWay;
  lrp_prev : option LocationReferencePoint;
  lrp_distance : option float;
  lrp_lfrcnp : option Z;
}.

(** [OpenLR::OpenLr{lrps, poff, noff}]. *)
Record OpenLr := mkOpenLr {
  lrps : list LocationReferencePoint;
  poff : Z;
  noff : Z;
}.

(** [rapidjson::writer_wrapper_t], as the sequence of events written so far. *)
Inductive writer_event :=
  | ev_Key (k : string)
  | ev_StartArray
  | ev_String (s : string)
  | ev_EndArray.

Definition writer_wrapper_t := list writer_event.

(** The JSON values that [route_references] builds. *)
#[warnings="-register-all"]
Inductive json :=
  | Jstring (s : string)
  | Jarray (l : list json).

(** [Api]: every part is a message-typed field, present or unset. *)
Record Api := mkApi {
  options_ : option Options;
  trip_ : option Trip;
  directions_ : option Directions;
  status_ : option Status;
  matrix_ : option Matrix;
  info_ : option Info;
}.

End Messages.

(** ** Collaborators outside this file *)

Class Collaborators `{Payloads} := {
  (** the road class that [road_class_to_fow] compares with *)
  kMotorway : Z;
  (** [midgard::kMetersPerKm] and the product of two floats *)
  kMetersPerKm : float;
  fmul : float -> float -> float;
  (** the literal [20.f] *)
  sample_distance_20 : float;
  (** [midgard::decode] of an encoded polyline *)
  decode : string -> list PointLL;
  (** [midgard::tangent_angle index point shape sample_distance forward
      first_segment_index last_segment_index] *)
  tangent_angle :
    nat -> PointLL -> list PointLL -> float -> bool -> nat -> nat -> float;
  (** [OpenLr::toBase64] *)
  toBase64 : OpenLr -> string;
  (** the action of a default-constructed [Options] *)
  default_action : Action;
  (** [Message::SerializeAsString] *)
  SerializeAsString : Api -> string;
}.

Section Serializers.

Context `{Collaborators}.

(** ** Form of way *)

Definition road_class_to_fow (edge : Edge) : FormOfWay :=
  if roundabout edge then ROUNDABOUT
  else if bool_decide (use edge = kRampUse) || bool_decide (use edge = kTurnChannelUse)
  then SLIPROAD
  else if bool_decide (road_class edge = kMotorway) then MOTORWAY
  else if bool_decide (traversability edge = kBoth) then MULTIPLE_CARRIAGEWAY
  else if negb (bool_decide (traversability edge = kNone)) then SINGLE_CARRIAGEWAY
  else OTHER.

(** ** One reference per edge *)

(** [static_cast<uint8_t>]. *)
Definition to_uint8 (z : Z) : Z := (z mod 256)%Z.

(** The vector [lrps] after the two [emplace_back]s of the loop body.
    Indexing the shape outside its bounds is undefined in the source; the
    model has no result ([None]) there. *)
Definition edge_lrps (shape : list PointLL) (edge : Edge)
  : option (list LocationReferencePoint) :=
  let fow := road_class_to_fow edge in
  let frc := to_uint8 (road_class edge) in
  let begin_index := begin_shape_index edge in
  let end_index := end_shape_index edge in
  start ← shape !! begin_index;
  let forward_heading :=
    tangent_angle begin_index start shape sample_distance_20 true begin_index end_index in
  end_ ← shape !! end_index;
  let reverse_heading :=
    tangent_angle end_index end_ shape sample_distance_20 false begin_index end_index in
  let lrps := [] in
  let lrps :=
    lrps ++ [mkLRP (lng start) (lat start) forward_heading frc fow None
                   (Some (fmul (length_km edge) kMetersPerKm)) (Some frc)] in
  let lrps :=
    lrps ++ [mkLRP (lng end_) (lat end_) reverse_heading frc fow (last lrps) None None] in
  Some lrps.

(** The string appended for one edge. *)
Definition edge_openlr (shape : list PointLL) (edge : Edge) : option string :=
  lrps ← edge_lrps shape edge;
  Some (toBase64 (mkOpenLr lrps 0 0)).

(** The loop over the nodes; [openlrs] is the vector built so far. *)
Fixpoint openlr_edges_loop (shape : list PointLL) (nodes : list Node)
    (openlrs : list string) : option (list string) :=
  match nodes with
  | [] => Some openlrs
  | node :: rest =>
      match edge node with
      | None => Some openlrs (* break *)
      | Some edge =>
          s ← edge_openlr shape edge;
          openlr_edges_loop shape rest (openlrs ++ [s])
      end
  end.

Definition openlr_edges (leg : TripLeg) : option (list string) :=
  let shape := decode (shape leg) in
  openlr_edges_loop shape (node leg) [].

(** ** Linear references in the JSON responses *)

(** [unordered_map::emplace]: an existing key keeps its value. *)
Definition emplace (k : string) (v : json) (m : gmap string json) : gmap string json :=
  match m !! k with
  | Some _ => m
  | None => <[k:=v]> m
  end.

(** The loop of [route_references] over the legs of the route. *)
Fixpoint route_references_loop (legs : list TripLeg) (references : list json)
  : option (list json) :=
  match legs with
  | [] => Some references
  | leg :: rest =>
      edge_references ← openlr_edges leg;
      route_references_loop rest (references ++ (Jstring <$> edge_references))
  end.

Definition route_references (route_json : gmap string json) (route : TripRoute)
    (options : Options) : option (gmap string json) :=
  let linear_reference :=
    linear_references options &&
    (bool_decide (action options = Options_trace_route) ||
     bool_decide (action options = Options_route)) in
  if negb linear_reference then Some route_json
  else
    references ← route_references_loop (legs route) [];
    Some (emplace "linear_references" (Jarray references) route_json).

(** The writer operations that [openlr] uses. *)
Definition start_array (k : string) (writer : writer_wrapper_t) : writer_wrapper_t :=
  writer ++ [ev_Key k; ev_StartArray].
Definition write_string (s : string) (writer : writer_wrapper_t) : writer_wrapper_t :=
  writer ++ [ev_String s].
Definition end_array (writer : writer_wrapper_t) : writer_wrapper_t :=
  writer ++ [ev_EndArray].

(** ** The response object *)

Definition Options_default : Options := mkOptions default_action false None.

Definition options (request : Api) : Options := default Options_default (options_ request).
Definition trip (request : Api) : Trip := default (mkTrip []) (trip_ request).
Definition has_info (request : Api) : bool := bool_decide (is_Some (info_ request)).
Definition info (request : Api) : Info := default Info_default (info_ request).

(** The loops of [openlr]: over the strings of a leg, and over the legs. *)
Definition openlr_write_leg (openlrs : list string) (writer : writer_wrapper_t)
  : writer_wrapper_t :=
  foldl (fun writer openlr => write_string openlr writer) writer openlrs.

Fixpoint openlr_loop (legs : list TripLeg) (writer : writer_wrapper_t)
  : option writer_wrapper_t :=
  match legs with
  | [] => Some writer
  | leg :: rest =>
      openlrs ← openlr_edges leg;
      openlr_loop rest (openlr_write_leg openlrs writer)
  end.

(** [routes(route_index)]: an index outside the routes is undefined in the
    source and has no result here. *)
Definition routes_at (t : Trip) (route_index : Z) : option TripRoute :=
  if (route_index <? 0)%Z then None else routes t !! Z.to_nat route_index.

Definition openlr (api : Api) (route_index : Z) (writer : writer_wrapper_t)
  : option writer_wrapper_t :=
  if negb (linear_references (options api)) ||
     (negb (bool_decide (action (options api) = Options_trace_route)) &&
      negb (bool_decide (action (options api) = Options_route)))
  then Some writer
  else
    let writer := start_array "linear_references" writer in
    route ← routes_at (trip api) route_index;
    writer ← openlr_loop (legs route) writer;
    Some (end_array writer).

(** ** Protobuf output *)

(** A computation on the request object, passed by reference: it yields an
    outcome and the request as it is left behind. *)
Definition M (A : Type) : Type := Api -> outcome A * Api.

Definition ret {A} (a : A) : M A := fun request => (Returns a, request).
Definition bind {A B} (c : M A) (k : A -> M B) : M B :=
  fun request =>
    match c request with
    | (Returns a, request') => k a request'
    | (Throws e, request') => (Throws e, request')
    end.
Definition throw {A} (e : exception) : M A := fun request => (Throws e, request).
Definition get : M Api := fun request => (Returns request, request).
Definition modify (f : Api -> Api) : M unit := fun request => (Returns tt, f request).

Notation "'do' x <- c ;; k" := (bind c (fun x => k))
  (at level 10, x name, c at level 99, k at level 200).
Notation "'run' c ;; k" := (bind c (fun _ => k))
  (at level 10, c at level 99, k at level 200).

Definition clear_trip : M unit :=
  modify (fun r => mkApi (options_ r) None (directions_ r) (status_ r) (matrix_ r) (info_ r)).
Definition clear_directions : M unit :=
  modify (fun r => mkApi (options_ r) (trip_ r) None (status_ r) (matrix_ r) (info_ r)).
Definition clear_status : M unit :=
  modify (fun r => mkApi (options_ r) (trip_ r) (directions_ r) None (matrix_ r) (info_ r)).
Definition clear_options : M unit :=
  modify (fun r => mkApi None (trip_ r) (directions_ r) (status_ r) (matrix_ r) (info_ r)).
Definition clear_matrix : M unit :=
  modify (fun r => mkApi (options_ r) (trip_ r) (directions_ r) (status_ r) None (info_ r)).

(** [request.mutable_options()->Swap(&dummy)]: the request gets the content
    of [dummy], and the result is the new content of [dummy], which is what
    the request held (the default instance if the field was unset). *)
Definition mutable_options_Swap (dummy : Options) : M Options :=
  fun r =>
    (Returns (options r),
     mkApi (Some dummy) (trip_ r) (directions_ r) (status_ r) (matrix_ r) (info_ r)).

Definition when (b : bool) (c : M unit) : M unit := if b then c else ret tt.

Definition serializePbf : M string :=
  do request <- get ;;
  let selection := pbf_field_selector (options request) in
  do selection <-
    (if negb (has_pbf_field_selector (options request)) then
       match action (options request) with
       | Options_route
       | Options_centroid
       | Options_optimized_route
       | Options_trace_route => ret (set_directions true selection)
       | Options_trace_attributes => ret (set_trip true selection)
       | Options_status => ret (set_status true selection)
       | Options_sources_to_targets => ret (set_matrix true selection)
       | _ => throw (logic_error "Requested action is not yet serializable as pbf")
       end
     else ret selection) ;;
  let skip_options :=
    negb (sel_options (pbf_field_selector (options request))) &&
    has_info request && is_service (info request) in
  let dummy := Options_default in
  do dummy <- (if skip_options then mutable_options_Swap dummy else ret dummy) ;;
  run when (negb (sel_trip selection)) clear_trip ;;
  run when (negb (sel_directions selection)) clear_directions ;;
  run when (negb (sel_status selection)) clear_status ;;
  run when (negb (sel_options selection)) clear_options ;;
  run when (negb (sel_matrix selection)) clear_matrix ;;
  do request <- get ;;
  let bytes := SerializeAsString request in
  do dummy <- (if skip_options then mutable_options_Swap dummy else ret dummy) ;;
  ret bytes.

End Serializers.

(** ** Notions used in the statements *)

Section Notions.

Context `{Collaborators}.

(** The edges of the nodes in front of the first node without an edge. *)
Fixpoint leading_edges (nodes : list Node) : list Edge :=
  match nodes with
  | [] => []
  | node :: rest =>
      match edge node with
      | None => []
      | Some e => e :: leading_edges rest
      end
  end.

(** Every edge of every node, whatever its position. *)
Definition all_edges (nodes : list Node) : list Edge := omap edge nodes.

(** The shape indices of an edge lie within the shape. *)
Definition edge_in_shape (shape : list PointLL) (e : Edge) : Prop :=
  begin_shape_index e < length shape ∧ end_shape_index e < length shape.

(** The edges that the encoder reaches in a leg index into its shape. *)
Definition leg_in_shape (leg : TripLeg) : Prop :=
  Forall (edge_in_shape (decode (shape leg))) (leading_edges (node leg)).

(** Linear references are wanted: they were requested, and the action is a
    route or a trace route. *)
Definition linear_references_wanted (o : Options) : Prop :=
  linear_references o = true /\
  (action o = Options_route \/ action o = Options_trace_route).

(** What [serializePbf] keeps of a request under a selection. *)
Definition selected (sel : PbfFieldSelector) (request : Api) : Api :=
  mkApi (if sel_options sel then options_ request else None)
        (if sel_trip sel then trip_ request else None)
        (if sel_directions sel then directions_ request else None)
        (if sel_status sel then status_ request else None)
        (if sel_matrix sel then matrix_ request else None)
        (info_ request).

(** The selection that the specification gives for an action when the
    request selects nothing itself: the directions for the route-like
    actions, the trip for trace attributes, the status for status, the
    matrix for sources-to-targets, and none for any other action. *)
Definition default_selection (a : Action) : option PbfFieldSelector :=
  match a with
  | Options_route | Options_centroid | Options_optimized_route | Options_trace_route =>
      Some (mkPbfFieldSelector false false true false false)
  | Options_trace_attributes => Some (mkPbfFieldSelector false true false false false)
  | Options_status => Some (mkPbfFieldSelector false false false true false)
  | Options_sources_to_targets => Some (mkPbfFieldSelector false false false false true)
  | Options_other_action _ => None
  end.

(** The error of [serializePbf]. *)
Definition not_serializable : exception :=
  logic_error "Requested action is not yet serializable as pbf".

End Notions.

(** ** A concrete instance, for examples *)

Module Sample.

Definition payloads : Payloads :=
  {| float := Z; Directions := unit; Status := unit; Matrix := unit |}.
#[local] Existing Instance payloads.

(** One point per character of the encoded shape. *)
Definition decode_chars (s : string) : list (@PointLL payloads) :=
  (fun c => @mkPointLL payloads (Z.of_nat (Ascii.nat_of_ascii c)) 0%Z)
    <$> String.list_ascii_of_string s.

(** One character per point of the chain. *)
Definition chain_chars (o : @OpenLr payloads) : string :=
  String.string_of_list_ascii
    ((fun p : LocationReferencePoint => Ascii.ascii_of_nat (Z.to_nat (lrp_longitude p)))
       <$> lrps o).

Definition flag (c : string) {A} (o : option A) : string :=
  match o with Some _ => c | None => "" end.

(** One letter per part that is present. *)
Definition present_parts (r : @Api payloads) : string :=
  flag "O" (options_ r) +:+ flag "T" (trip_ r) +:+ flag "D" (directions_ r) +:+
  flag "S" (status_ r) +:+ flag "M" (matrix_ r) +:+ flag "I" (info_ r).

Definition collaborators : @Collaborators payloads :=
  {| kMotorway := 0%Z;
     kMetersPerKm := 1000%Z;
     fmul := Z.mul;
     sample_distance_20 := 20%Z;
     decode := decode_chars;
     tangent_angle := fun _ _ _ _ forward _ _ => if forward then 90%Z else 270%Z;
     toBase64 := chain_chars;
     default_action := Options_other_action 0;
     SerializeAsString := present_parts |}.

Definition edge_ab : @Edge payloads := mkEdge false (kUse_other 0) 3%Z kBoth 2%Z 0 1.
Definition edge_bc : @Edge payloads := mkEdge true kRampUse 0%Z kForward 5%Z 1 2.
Definition with_edge (e : @Edge payloads) : @Node payloads := mkNode (Some e).
Definition no_edge : @Node payloads := mkNode None.

(** A regular leg: two edges, then the destination. *)
Definition leg_regular : @TripLeg payloads :=
  mkTripLeg "abc" [with_edge edge_ab; with_edge edge_bc; no_edge].

(** A leg with an edge-less node between two edges. *)
Definition leg_gap : @TripLeg payloads :=
  mkTripLeg "abc" [with_edge edge_ab; no_edge; with_edge edge_bc; no_edge].

(** A request for an action that the switch of [serializePbf] does not
    name, with an explicit selection of the directions. *)
Definition request_selected : @Api payloads :=
  mkApi (Some (mkOptions (Options_other_action 2) false
                 (Some (mkPbfFieldSelector false false true false false))))
        (Some (mkTrip [mkTripRoute [leg_regular]])) (Some ()) None None
        (Some (mkInfo true)).

(** The same request without the selection. *)
Definition request_unselected : @Api payloads :=
  mkApi (Some (mkOptions (Options_other_action 2) false None))
        (Some (mkTrip [mkTripRoute [leg_regular]])) (Some ()) None None
        (Some (mkInfo true)).

(** A route request from the service itself, with linear references. *)
Definition request_route : @Api payloads :=
  mkApi (Some (mkOptions Options_route true None))
        (Some (mkTrip [mkTripRoute [leg_regular]])) (Some ()) (Some ()) None
        (Some (mkInfo true)).

(** A trace-attributes request with linear references. *)
Definition request_attributes : @Api payloads :=
  mkApi (Some (mkOptions Options_trace_attributes true None))
        (Some (mkTrip [mkTripRoute [leg_regular]])) (Some ()) None None None.

End Sample.

(** * The OSRM-compatible waypoints *)

(** [valhalla::Location::Type]: the serializer names the via and the through
    type; [kType_other] stands for every other enumerator. *)
Inductive Location_Type := kThrough | kVia | kType_other (tag : nat).

#[global] Instance Location_Type_eq_dec : EqDecision Location_Type.
Proof. solve_decision. Defined.

Section Locations.

Context `{Payloads}.

(** [valhalla::LatLng]. *)
Record LatLng := mkLatLng { ll_lng : float; ll_lat : float }.

(** An edge that a location was correlated to ([PathEdge]). *)
Record PathEdge := mkPathEdge { pe_ll : LatLng; pe_names : list string }.

(** [Location::correlation()].  The indices are unsigned 32-bit values. *)
Record Correlation := mkCorrelation {
  edges : list PathEdge;
  waypoint_index : Z;
  route_index_ : Z;
  leg_shape_index : Z;
  distance_from_leg_origin : float;
  original_index : Z;
}.

Record Location := mkLocation {
  loc_ll : LatLng;
  loc_correlation : Correlation;
  loc_type : Location_Type;
}.

(** [baldr::json::Value], as far as this file builds it. *)
#[warnings="-register-all"]
Inductive Value :=
  | Vnull
  | Vstring (s : string)
  | Vuint64 (n : Z)
  | Vfixed (f : float) (precision : nat)
  | Varray (l : list Value)
  | Vmap (m : gmap string Value).

End Locations.

(** What the waypoint functions take from outside this file. *)
Class Waypoints `{Payloads} := {
  (** [to_ll] and [PointLL::Distance] *)
  to_ll : LatLng -> PointLL;
  Distance : PointLL -> PointLL -> float;
  (** the default of [is_optimized], where [waypoint] is called with two
      arguments *)
  is_optimized_default : bool;
  (** [TripLeg::location()] *)
  location : TripLeg -> list Location;
}.

Module osrm.
Section osrm.

Context `{Waypoints}.

(** [std::unordered_map::emplace] on a JSON map. *)
Definition emplace (k : string) (v : Value) (m : gmap string Value) : gmap string Value :=
  match m !! k with
  | Some _ => m
  | None => <[k:=v]> m
  end.

(** [static_cast<uint64_t>] of a signed value. *)
Definition to_uint64 (z : Z) : Z := (z mod 2 ^ 64)%Z.

(** [numeric_limits<uint32_t>::max()]. *)
Definition uint32_max : Z := 4294967295%Z.

(** [waypoint]: reading [edges(0)] of a location without a correlated edge
    is undefined in the source and has no result here. *)
Definition waypoint (location : Location) (is_tracepoint is_optimized : bool)
  : option (gmap string Value) :=
  let waypoint : gmap string Value := ∅ in
  let correlation := loc_correlation location in
  edges_0 ← edges correlation !! 0;
  let loc := [] in
  let loc := loc ++ [Vfixed (ll_lng (pe_ll edges_0)) 6] in
  let loc := loc ++ [Vfixed (ll_lat (pe_ll edges_0)) 6] in
  let waypoint := emplace "location" (Varray loc) waypoint in
  let name :=
    if negb (length (edges correlation) =? 0) && negb (length (pe_names edges_0) =? 0)
    then default "" (pe_names edges_0 !! 0)
    else "" in
  let waypoint := emplace "name" (Vstring name) waypoint in
  let waypoint :=
    emplace "distance"
      (Vfixed (Distance (to_ll (loc_ll location)) (to_ll (pe_ll edges_0))) 3) waypoint in
  let waypoint :=
    if is_tracepoint then
      let waypoint :=
        emplace "alternatives_count"
          (Vuint64 (to_uint64 (Z.of_nat (length (edges correlation)) - 1))) waypoint in
      let waypoint :=
        if (waypoint_index correlation =? uint32_max)%Z
        then emplace "waypoint_index" Vnull waypoint
        else emplace "waypoint_index"
               (Vuint64 (to_uint64 (waypoint_index correlation))) waypoint in
      emplace "matchings_index" (Vuint64 (to_uint64 (route_index_ correlation))) waypoint
    else waypoint in
  let waypoint :=
    if is_optimized then
      let trips_index := 0%Z in
      let waypoint := emplace "trips_index" (Vuint64 (to_uint64 trips_index)) waypoint in
      emplace "waypoint_index"
        (Vuint64 (to_uint64 (waypoint_index correlation))) waypoint
    else waypoint in
  Some waypoint.

(** [waypoints(locations, is_tracepoint)]: the loop, with the array built
    so far. *)
Fixpoint waypoints_loop (locations : list Location) (is_tracepoint : bool)
    (waypoints : list Value) : option (list Value) :=
  match locations with
  | [] => Some waypoints
  | location :: rest =>
      if length (edges (loc_correlation location)) =? 0
      then waypoints_loop rest is_tracepoint (waypoints ++ [Vnull])
      else
        w ← waypoint location is_tracepoint is_optimized_default;
        waypoints_loop rest is_tracepoint (waypoints ++ [Vmap w])
  end.

Definition waypoints (locations : list Location) (is_tracepoint : bool)
  : option (list Value) :=
  waypoints_loop locations is_tracepoint [].

(** [waypoints(trip)]: the loop over the locations of one leg, from index
    [i] on. *)
Fixpoint waypoints_leg_loop (locations : list Location) (i : nat)
    (waypoints : list Value) : option (list Value) :=
  match locations with
  | [] => Some waypoints
  | location :: rest =>
      if (i =? 0) && negb (length waypoints =? 0)
      then waypoints_leg_loop rest (S i) waypoints (* continue *)
      else
        w ← waypoint location false is_optimized_default;
        waypoints_leg_loop rest (S i) (waypoints ++ [Vmap w])
  end.

Fixpoint waypoints_legs_loop (legs : list TripLeg) (waypoints : list Value)
  : option (list Value) :=
  match legs with
  | [] => Some waypoints
  | leg :: rest =>
      waypoints ← waypoints_leg_loop (location leg) 0 waypoints;
      waypoints_legs_loop rest waypoints
  end.

(** [routes(0)] of a trip without a route is undefined in the source. *)
Definition waypoints_trip (trip : Trip) : option (list Value) :=
  route ← routes trip !! 0;
  waypoints_legs_loop (legs route) [].

(** [intermediate_waypoints]. *)
Fixpoint intermediate_waypoints_loop (locations : list Location)
    (via_waypoints : list Value) : list Value :=
  match locations with
  | [] => via_waypoints
  | loc :: rest =>
      if bool_decide (loc_type loc = kVia) || bool_decide (loc_type loc = kThrough)
      then
        let via_waypoint : gmap string Value := ∅ in
        let via_waypoint :=
          emplace "geometry_index"
            (Vuint64 (to_uint64 (leg_shape_index (loc_correlation loc)))) via_waypoint in
        let via_waypoint :=
          emplace "distance_from_start"
            (Vfixed (distance_from_leg_origin (loc_correlation loc)) 3) via_waypoint in
        let via_waypoint :=
          emplace "waypoint_index"
            (Vuint64 (to_uint64 (original_index (loc_correlation loc)))) via_waypoint in
        intermediate_waypoints_loop rest (via_waypoints ++ [Vmap via_waypoint])
      else intermediate_waypoints_loop rest via_waypoints
  end.

Definition intermediate_waypoints (leg : TripLeg) : list Value :=
  intermediate_waypoints_loop (location leg) [].

End osrm.
End osrm.

(** ** Notions used in the statements about waypoints *)

(** The entry of [waypoints(trip)] for a location. *)
Definition trip_waypoint `{Waypoints} (loc : Location) : option Value :=
  Vmap <$> osrm.waypoint loc false is_optimized_default.

(** The object of [intermediate_waypoints] for a location. *)
Definition via_waypoint_of `{Payloads} (loc : Location) : Value :=
  Vmap {[ "geometry_index" :=
            Vuint64 (osrm.to_uint64 (leg_shape_index (loc_correlation loc)));
          "distance_from_start" :=
            Vfixed (distance_from_leg_origin (loc_correlation loc)) 3;
          "waypoint_index" :=
            Vuint64 (osrm.to_uint64 (original_index (loc_correlation loc))) ]}.

(** A concrete instance of the waypoint collaborators: a leg has one
    location per character of its shape, each correlated to one edge. *)
Module SampleWaypoints.

#[local] Existing Instance Sample.payloads.

Definition location_of (c : Ascii.ascii) : Location :=
  let ll := mkLatLng (Z.of_nat (Ascii.nat_of_ascii c)) 0%Z in
  mkLocation ll (mkCorrelation [mkPathEdge ll ["street"]] 0%Z 0%Z 0%Z 0%Z 0%Z)
             (kType_other 0).

Definition waypoints_instance : @Waypoints Sample.payloads :=
  {| to_ll := fun l => mkPointLL (ll_lng l) (ll_lat l);
     Distance := fun a b => (lng a - lng b)%Z;
     is_optimized_default := false;
     location := fun leg => location_of <$> String.list_ascii_of_string (shape leg) |}.

(** A trip of one route with two legs of three locations each. *)
Definition trip_two_legs : @Trip Sample.payloads :=
  mkTrip [mkTripRoute [Sample.leg_regular; Sample.leg_gap]].

(** A map-matched point that is no break point, with two candidate edges. *)
Definition tracepoint : @Location Sample.payloads :=
  let ll := mkLatLng 1%Z 2%Z in
  mkLocation ll
    (mkCorrelation [mkPathEdge ll []; mkPathEdge ll ["a"]] osrm.uint32_max 0%Z 0%Z 0%Z 0%Z)
    kVia.

End SampleWaypoints.

(** * Legal speed limits *)

Module LegalSpeed.

Record VehicleSpeeds := mkVehicleSpeeds { auto_ : Z; truck_ : Z }.

Module LegalSpeedDomain.
Inductive t :=
  | kInvalid
  | kRural
  | kUrban
  | kMotorway
  | kLivingStreet
  | kTrunk
  | kService
  | kFallback.
End LegalSpeedDomain.

(** The enumerators of [baldr::RoadClass], [baldr::Use] and
    [baldr::SpeedType] that [update_speed] names; [other] stands for every
    other enumerator. *)
Module RoadClass.
Inductive t := kMotorway | kTrunk | other (tag : nat).
End RoadClass.

Module Use.
Inductive t := kLivingStreet | kServiceRoad | other (tag : nat).
End Use.

Module SpeedType.
Inductive t := kTagged | kClassified | other (tag : nat).
End SpeedType.

#[global] Instance LegalSpeedDomain_eq_dec : EqDecision LegalSpeedDomain.t.
Proof. solve_decision. Defined.
#[global] Instance baldr_RoadClass_eq_dec : EqDecision RoadClass.t.
Proof. solve_decision. Defined.
#[global] Instance baldr_Use_eq_dec : EqDecision Use.t.
Proof. solve_decision. Defined.
#[global] Instance baldr_SpeedType_eq_dec : EqDecision SpeedType.t.
Proof. solve_decision. Defined.

(** The exceptions of this part. *)
Inductive exn :=
  | runtime_error (what : string)
  | invalid_argument (what : string)
  | out_of_range (what : string)
  | assertion (what : string).

(** How a computation ends: with a value, with an exception, or by the
    end of the process. *)
Inductive result (A : Type) :=
  | Done (a : A)
  | Raised (e : exn)
  | Aborted.
Arguments Done {A} a.
Arguments Raised {A} e.
Arguments Aborted {A}.

Definition result_bind {A B} (c : result A) (k : A -> result B) : result B :=
  match c with
  | Done a => k a
  | Raised e => Raised e
  | Aborted => Aborted
  end.

Notation "'try' x <- c ;; k" := (result_bind c (fun x => k))
  (at level 10, x name, c at level 99, k at level 200).

(** The lookup table of [stringToLegalSpeedDomain]. *)
Definition domain_names : list (string * LegalSpeedDomain.t) :=
  [("rural", LegalSpeedDomain.kRural); ("urban", LegalSpeedDomain.kUrban);
   ("motorway", LegalSpeedDomain.kMotorway);
   ("living street", LegalSpeedDomain.kLivingStreet);
   ("trunk", LegalSpeedDomain.kTrunk); ("service road", LegalSpeedDomain.kService);
   ("fallback", LegalSpeedDomain.kFallback)].

Definition stringToLegalSpeedDomain (s : string) : LegalSpeedDomain.t :=
  let table : gmap string LegalSpeedDomain.t := list_to_map domain_names in
  match table !! s with
  | None => LegalSpeedDomain.kInvalid
  | Some found => found
  end.

(** [isdigit]. *)
Definition isdigit (c : Ascii.ascii) : bool :=
  (48 <=? Ascii.nat_of_ascii c) && (Ascii.nat_of_ascii c <=? 57).

(** The first loop of [parseOSMSpeedString]: [num_ix] counts the digits at
    the front of the string and the loop leaves at the first other
    character. *)
Fixpoint leading_digits (s : string) (num_ix : nat) : nat :=
  match s with
  | EmptyString => num_ix
  | String c rest => if isdigit c then leading_digits rest (S num_ix) else num_ix
  end.

Definition INT_MAX : Z := 2147483647%Z.

(** The value of a string of decimal digits, read from the left. *)
Fixpoint digits_value (s : string) (acc : Z) : Z :=
  match s with
  | EmptyString => acc
  | String c rest => digits_value rest (acc * 10 + (Z.of_nat (Ascii.nat_of_ascii c) - 48))%Z
  end.

(** [std::stoi] on a string that starts with a decimal digit, which is all
    that [parseOSMSpeedString] passes: the value of the digits at the front,
    or [out_of_range] when it does not fit an [int]. *)
Definition stoi (s : string) : result Z :=
  let n := leading_digits s 0 in
  if n =? 0 then Raised (invalid_argument "stoi")
  else
    let v := digits_value (String.substring 0 n s) 0 in
    if (v >? INT_MAX)%Z then Raised (out_of_range "stoi") else Done v.

(** The string ends in "mph" and is longer than that. *)
Definition mph_suffix (s : string) : bool :=
  (3 <? String.length s) &&
  String.eqb (String.substring (String.length s - 3) 3 s) "mph".

(** ** A JSON document, as rapidjson holds it *)

#[warnings="-register-all"]
Inductive rj :=
  | rj_null
  | rj_bool (b : bool)
  | rj_number (text : string)
  | rj_string (s : string)
  | rj_array (elements : list rj)
  | rj_object (members : list (string * rj)).

(** [rapidjson::read_json] yields a document, which may hold a parse
    error. *)
Record Document := mkDocument { HasParseError : bool; root : rj }.

(** The speed limits of one country or state. *)
Record SimpleLegalSpeed := mkSimpleLegalSpeed {
  urban : VehicleSpeeds;
  rural : VehicleSpeeds;
  motorway : VehicleSpeeds;
  trunk : VehicleSpeeds;
  living_street : VehicleSpeeds;
  service : VehicleSpeeds;
  fallback : VehicleSpeeds;
}.

(** What this part takes from outside the file. *)
Class Environment := {
  (** [static_cast<uint32_t>(std::floor(static_cast<float>(speed) * kMPHtoKPH))] *)
  mph_to_kph : Z -> Z;
  (** [kMaxRuralDensity] *)
  kMaxRuralDensity : Z;
  (** what a failed [RAPIDJSON_ASSERT] does: it throws the exception given,
      or, with [None], ends the process *)
  RAPIDJSON_ASSERT_throws : option exn;
  (** [rapidjson::read_json] *)
  read_json : string -> result Document;
  (** the content of a [SimpleLegalSpeed] whose members were never
      assigned *)
  indeterminate : SimpleLegalSpeed;
}.

(** [baldr::DirectedEdge], as [update_speed] uses it. *)
Class DirectedEdgeOps (DirectedEdge : Type) := {
  speed : DirectedEdge -> Z;
  truck_speed : DirectedEdge -> Z;
  speed_type : DirectedEdge -> SpeedType.t;
  truck_speed_type : DirectedEdge -> SpeedType.t;
  classification : DirectedEdge -> RoadClass.t;
  use : DirectedEdge -> Use.t;
  set_speed : Z -> DirectedEdge -> DirectedEdge;
  set_truck_speed : Z -> DirectedEdge -> DirectedEdge;
}.

Section LegalSpeed.

Context `{Environment}.

Definition parseOSMSpeedString (s : string) : result Z :=
  if String.length s =? 0 then Done 0%Z
  else
    let num_ix := leading_digits s 0 in
    try speed <-
      (if num_ix <? 1
       then Done (if String.eqb s "walk" then 10%Z else 0%Z)
       else stoi (String.substring 0 num_ix s)) ;;
    let speed := if mph_suffix s then mph_to_kph speed else speed in
    Done speed.

(** *** Reading members *)

Definition failed_assertion {A} : result A :=
  match RAPIDJSON_ASSERT_throws with
  | Some e => Raised e
  | None => Aborted
  end.

Definition GetObject (v : rj) : result (list (string * rj)) :=
  match v with rj_object members => Done members | _ => failed_assertion end.
Definition GetArray (v : rj) : result (list rj) :=
  match v with rj_array elements => Done elements | _ => failed_assertion end.
Definition GetString (v : rj) : result string :=
  match v with rj_string s => Done s | _ => failed_assertion end.
Definition IsObject (v : rj) : bool :=
  match v with rj_object _ => true | _ => false end.

(** [FindMember]: the first member of that name. *)
Fixpoint FindMember (members : list (string * rj)) (name : string) : option rj :=
  match members with
  | [] => None
  | (k, v) :: rest => if String.eqb k name then Some v else FindMember rest name
  end.

Definition HasMember (members : list (string * rj)) (name : string) : bool :=
  match FindMember members name with Some _ => true | None => false end.

(** [operator[]]: a missing member fails an assertion. *)
Definition member (members : list (string * rj)) (name : string) : result rj :=
  match FindMember members name with
  | Some v => Done v
  | None => failed_assertion
  end.

(** *** [SimpleLegalSpeed] *)

(** The switch on the domain. *)
Definition assign (ls : SimpleLegalSpeed) (domain : LegalSpeedDomain.t)
    (auto_speed truck_speed : Z) : SimpleLegalSpeed :=
  let speeds := mkVehicleSpeeds auto_speed truck_speed in
  match domain with
  | LegalSpeedDomain.kRural =>
      mkSimpleLegalSpeed (urban ls) speeds (motorway ls) (trunk ls)
        (living_street ls) (service ls) (fallback ls)
  | LegalSpeedDomain.kUrban =>
      mkSimpleLegalSpeed speeds (rural ls) (motorway ls) (trunk ls)
        (living_street ls) (service ls) (fallback ls)
  | LegalSpeedDomain.kMotorway =>
      mkSimpleLegalSpeed (urban ls) (rural ls) speeds (trunk ls)
        (living_street ls) (service ls) (fallback ls)
  | LegalSpeedDomain.kLivingStreet =>
      mkSimpleLegalSpeed (urban ls) (rural ls) (motorway ls) (trunk ls)
        speeds (service ls) (fallback ls)
  | LegalSpeedDomain.kTrunk =>
      mkSimpleLegalSpeed (urban ls) (rural ls) (motorway ls) speeds
        (living_street ls) (service ls) (fallback ls)
  | LegalSpeedDomain.kService =>
      mkSimpleLegalSpeed (urban ls) (rural ls) (motorway ls) (trunk ls)
        (living_street ls) speeds (fallback ls)
  | LegalSpeedDomain.kInvalid => ls
  | _ => ls
  end.

(** The body of the loop of the constructor, for one entry of the array. *)
Definition SimpleLegalSpeed_entry (ls : SimpleLegalSpeed) (entry : rj)
  : result SimpleLegalSpeed :=
  try entry_members <- GetObject entry ;;
  try domain <-
    (if HasMember entry_members "name"
     then try name <- member entry_members "name" ;;
          try name <- GetString name ;;
          Done (stringToLegalSpeedDomain name)
     else Done LegalSpeedDomain.kFallback) ;;
  try tags <- member entry_members "tags" ;;
  try tags <- GetObject tags ;;
  try truck_speed_str <-
    (if HasMember tags "maxspeed:hgv"
     then try v <- member tags "maxspeed:hgv" ;; GetString v
     else Done "") ;;
  try speed_str <-
    (if HasMember tags "maxspeed"
     then try v <- member tags "maxspeed" ;; GetString v
     else Done "") ;;
  try truck_speed <- parseOSMSpeedString truck_speed_str ;;
  try auto_speed <- parseOSMSpeedString speed_str ;;
  Done (assign ls domain auto_speed truck_speed).

Fixpoint SimpleLegalSpeed_loop (arr : list rj) (ls : SimpleLegalSpeed)
  : result SimpleLegalSpeed :=
  match arr with
  | [] => Done ls
  | entry :: rest =>
      try ls <- SimpleLegalSpeed_entry ls entry ;;
      SimpleLegalSpeed_loop rest ls
  end.

(** The constructor [SimpleLegalSpeed(arr)]: its members start out
    unassigned. *)
Definition SimpleLegalSpeed_of (arr : list rj) : result SimpleLegalSpeed :=
  SimpleLegalSpeed_loop arr indeterminate.

(** *** [SimpleLegalSpeedAssigner] *)

(** The loop over the countries and states of the document. *)
Fixpoint assigner_loop (members : list (string * rj))
    (legal_speeds_map_ : gmap string SimpleLegalSpeed)
  : result (gmap string SimpleLegalSpeed) :=
  match members with
  | [] => Done legal_speeds_map_
  | (code, value) :: rest =>
      try arr <- GetArray value ;;
      try ls <- SimpleLegalSpeed_of arr ;;
      if bool_decide (is_Some (legal_speeds_map_ !! code))
      then Raised (runtime_error "Duplicate country/state entry")
      else assigner_loop rest (<[code:=ls]> legal_speeds_map_)
  end.

(** The statements inside [try]. *)
Definition assigner_try (legal_speeds_file : string)
  : result (gmap string SimpleLegalSpeed) :=
  try doc <- read_json legal_speeds_file ;;
  if HasParseError doc then Raised (runtime_error "malformed json")
  else if negb (IsObject (root doc)) then Raised (runtime_error "must be a json object")
  else
    try members <- GetObject (root doc) ;;
    assigner_loop members ∅.

(** The constructor: the map [legal_speeds_map_] it leaves.  Both [catch]
    clauses clear the map. *)
Definition SimpleLegalSpeedAssigner (legal_speeds_file : option string)
  : result (gmap string SimpleLegalSpeed) :=
  match legal_speeds_file with
  | None => Done ∅
  | Some file =>
      match assigner_try file with
      | Done legal_speeds_map_ => Done legal_speeds_map_
      | Raised _ => Done ∅
      | Aborted => Aborted
      end
  end.

(** *** [update_speed] *)

Context {DirectedEdge : Type} `{!DirectedEdgeOps DirectedEdge}.

(** The limits of one domain, applied to the speeds found so far: a limit
    of zero changes nothing, and the truck speed takes the limit for
    trucks, or else the one for cars. *)
Definition apply_limits (limits : VehicleSpeeds) (speeds : Z * Z) : Z * Z :=
  let '(speed, truck_speed) := speeds in
  let speed := if (auto_ limits =? 0)%Z then speed else auto_ limits in
  let truck_speed :=
    if negb (truck_ limits =? 0)%Z then truck_ limits
    else if negb (auto_ limits =? 0)%Z then auto_ limits
    else truck_speed in
  (speed, truck_speed).

(** The values of [speed] and [truck_speed] before they are written to the
    edge. *)
Definition legal_limits (ls : SimpleLegalSpeed) (directededge : DirectedEdge)
    (density : Z) : Z * Z :=
  let speeds := (speed directededge, truck_speed directededge) in
  let speeds :=
    if (density >? kMaxRuralDensity)%Z
    then apply_limits (urban ls) speeds
    else apply_limits (rural ls) speeds in
  if bool_decide (classification directededge = RoadClass.kMotorway)
  then apply_limits (motorway ls) speeds
  else if bool_decide (use directededge = Use.kLivingStreet)
  then apply_limits (living_street ls) speeds
  else if bool_decide (classification directededge = RoadClass.kTrunk)
  then apply_limits (trunk ls) speeds
  else if bool_decide (use directededge = Use.kServiceRoad)
  then apply_limits (service ls) speeds
  else speeds.

(** The body of the loop over the two codes. *)
Definition update_speed_code (legal_speeds_map_ : gmap string SimpleLegalSpeed)
    (density : Z) (state : bool * DirectedEdge) (code : string)
  : bool * DirectedEdge :=
  let '(speeds_updated, directededge) := state in
  match legal_speeds_map_ !! code with
  | None => (speeds_updated, directededge) (* continue *)
  | Some ls =>
      let '(speed_, truck_speed_) := legal_limits ls directededge density in
      let '(speeds_updated, directededge) :=
        if bool_decide (speed_type directededge = SpeedType.kClassified)
        then (speeds_updated || negb (speed directededge =? speed_)%Z,
              set_speed speed_ directededge)
        else (speeds_updated, directededge) in
      let '(speeds_updated, directededge) :=
        if bool_decide (truck_speed_type directededge = SpeedType.kClassified)
        then (speeds_updated || negb (truck_speed directededge =? truck_speed_)%Z,
              set_truck_speed truck_speed_ directededge)
        else (speeds_updated, directededge) in
      (speeds_updated, directededge)
  end.

(** [update_speed]: the value returned and the edge as it is left. *)
Definition update_speed (legal_speeds_map_ : gmap string SimpleLegalSpeed)
    (directededge : DirectedEdge) (density : Z) (country_code state_code : string)
  : bool * DirectedEdge :=
  if bool_decide (speed_type directededge = SpeedType.kTagged) &&
     bool_decide (truck_speed_type directededge = SpeedType.kTagged)
  then (false, directededge)
  else
    let codes := [country_code; country_code +:+ "-" +:+ state_code] in
    foldl (update_speed_code legal_speeds_map_ density) (false, directededge) codes.

End LegalSpeed.

(** *** Notions used in the statements *)

(** The first value of the list that is not zero, or else the given one. *)
Fixpoint first_nonzero (limits : list Z) (otherwise : Z) : Z :=
  match limits with
  | [] => otherwise
  | l :: rest => if (l =? 0)%Z then first_nonzero rest otherwise else l
  end.

(** Every character of the string is a decimal digit. *)
Fixpoint all_digits (s : string) : bool :=
  match s with
  | EmptyString => true
  | String c rest => isdigit c && all_digits rest
  end.

(** The string does not start with a decimal digit. *)
Definition no_leading_digit (s : string) : bool :=
  match s with
  | EmptyString => true
  | String c _ => negb (isdigit c)
  end.

(** *** A concrete instance, for examples *)

Definition sample_speeds : SimpleLegalSpeed :=
  let none := mkVehicleSpeeds 0 0 in
  mkSimpleLegalSpeed (mkVehicleSpeeds 50 0) (mkVehicleSpeeds 100 80)
    (mkVehicleSpeeds 130 0) none (mkVehicleSpeeds 7 0) none none.

(** A document with one country: an urban and a rural limit. *)
Definition sample_document : Document :=
  mkDocument false
    (rj_object
       [("DE",
         rj_array
           [rj_object [("name", rj_string "urban");
                       ("tags", rj_object [("maxspeed", rj_string "50")])];
            rj_object [("name", rj_string "rural");
                       ("tags", rj_object [("maxspeed", rj_string "100");
                                           ("maxspeed:hgv", rj_string "50 mph")])]])]).

Definition sample_environment : Environment :=
  {| mph_to_kph := fun speed => (speed * 1609 / 1000)%Z;
     kMaxRuralDensity := 8%Z;
     RAPIDJSON_ASSERT_throws := Some (assertion "rapidjson");
     read_json := fun file =>
       if String.eqb file "legal_speeds.json" then Done sample_document
       else Raised (runtime_error "Unable to open file");
     indeterminate :=
       let none := mkVehicleSpeeds 0 0 in
       mkSimpleLegalSpeed none none none none none none none |}.

(** An edge as a record of what [update_speed] reads. *)
Record sample_edge := mkSampleEdge {
  se_speed : Z;
  se_truck_speed : Z;
  se_speed_type : SpeedType.t;
  se_truck_speed_type : SpeedType.t;
  se_classification : RoadClass.t;
  se_use : Use.t;
}.

(** An array with a fallback entry and an entry without speed tags. *)
Definition sample_array : list rj :=
  [rj_object [("name", rj_string "fallback");
              ("tags", rj_object [("maxspeed", rj_string "70")])];
   rj_object [("name", rj_string "urban"); ("tags", rj_object [])]].

(** An edge whose speeds are both tagged. *)
Definition tagged_edge : sample_edge :=
  mkSampleEdge 40 40 SpeedType.kTagged SpeedType.kTagged (RoadClass.other 3) (Use.other 0).

Definition sample_edge_ops : DirectedEdgeOps sample_edge :=
  {| speed := se_speed;
     truck_speed := se_truck_speed;
     speed_type := se_speed_type;
     truck_speed_type := se_truck_speed_type;
     classification := se_classification;
     use := se_use;
     set_speed := fun v e =>
       mkSampleEdge v (se_truck_speed e) (se_speed_type e) (se_truck_speed_type e)
         (se_classification e) (se_use e);
     set_truck_speed := fun v e =>
       mkSampleEdge (se_speed e) v (se_speed_type e) (se_truck_speed_type e)
         (se_classification e) (se_use e) |}.

End LegalSpeed.

(** * Incidents *)

Module Incidents.

(** The calls on a [rapidjson::Writer], in the order they were made. *)
Inductive sax :=
  | sax_Key (k : string)
  | sax_String (s : string)
  | sax_Int (i : Z)
  | sax_Uint64 (u : Z)
  | sax_Bool (b : bool)
  | sax_StartArray
  | sax_EndArray
  | sax_StartObject
  | sax_EndObject.

(** [IncidentsTile::Metadata]: the fields that are written.  The type and
    the impact are the integer values of their enumerators; the congestion
    is [None] when the message has none. *)
Record Metadata := mkMetadata {
  id : Z;
  type : Z;
  iso_3166_1_alpha2 : string;
  iso_3166_1_alpha3 : string;
  description : string;
  long_description : string;
  creation_time : Z;
  start_time : Z;
  end_time : Z;
  impact : Z;
  sub_type : string;
  sub_type_description : string;
  alertc_codes : list Z;
  lanes_blocked : list string;
  num_lanes_blocked : Z;
  clear_lanes : string;
  length_ : Z;
  road_closed : bool;
  congestion_value : option Z;
}.

(** The conversions to text that the function calls. *)
Class IncidentText := {
  (** [std::to_string] of the identifier *)
  to_string : Z -> string;
  incidentTypeToString : Z -> string;
  incidentImpactToString : Z -> string;
  (** [DateTime::seconds_to_date_utc] *)
  seconds_to_date_utc : Z -> string;
}.

Section Incidents.

Context `{IncidentText}.

(** [std::string::empty]. *)
Definition is_empty (s : string) : bool := String.length s =? 0.

(** A block of calls under a condition. *)
Definition when (c : bool) (writer calls : list sax) : list sax :=
  if c then writer ++ calls else writer.

Definition serializeIncidentProperties (writer : list sax) (incident_metadata : Metadata)
    (begin_shape_index end_shape_index : Z) (road_class key_prefix : string)
  : list sax :=
  let writer := writer ++ [sax_Key (key_prefix +:+ "id")] in
  let writer := writer ++ [sax_String (to_string (id incident_metadata))] in
  let writer := writer ++ [sax_Key (key_prefix +:+ "type")] in
  let writer :=
    writer ++ [sax_String (incidentTypeToString (type incident_metadata))] in
  let writer :=
    when (negb (is_empty (iso_3166_1_alpha2 incident_metadata))) writer
      ([sax_Key (key_prefix +:+ "iso_3166_1_alpha2");
         sax_String (iso_3166_1_alpha2 incident_metadata)]) in
  let writer :=
    when (negb (is_empty (iso_3166_1_alpha3 incident_metadata))) writer
      ([sax_Key (key_prefix +:+ "iso_3166_1_alpha3");
         sax_String (iso_3166_1_alpha3 incident_metadata)]) in
  let writer :=
    when (negb (is_empty (description incident_metadata))) writer
      ([sax_Key (key_prefix +:+ "description");
         sax_String (description incident_metadata)]) in
  let writer :=
    when (negb (is_empty (long_description incident_metadata))) writer
      ([sax_Key (key_prefix +:+ "long_description");
         sax_String (long_description incident_metadata)]) in
  let writer :=
    when (negb (creation_time incident_metadata =? 0)%Z) writer
      ([sax_Key (key_prefix +:+ "creation_time");
         sax_String (seconds_to_date_utc (creation_time incident_metadata))]) in
  let writer :=
    when ((start_time incident_metadata >? 0)%Z) writer
      ([sax_Key (key_prefix +:+ "start_time");
         sax_String (seconds_to_date_utc (start_time incident_metadata))]) in
  let writer :=
    when (negb (end_time incident_metadata =? 0)%Z) writer
      ([sax_Key (key_prefix +:+ "end_time");
         sax_String (seconds_to_date_utc (end_time incident_metadata))]) in
  let writer :=
    when (negb (impact incident_metadata =? 0)%Z) writer
      ([sax_Key (key_prefix +:+ "impact");
         sax_String (incidentImpactToString (impact incident_metadata))]) in
  let writer :=
    when (negb (is_empty (sub_type incident_metadata))) writer
      ([sax_Key (key_prefix +:+ "sub_type");
         sax_String (sub_type incident_metadata)]) in
  let writer :=
    when (negb (is_empty (sub_type_description incident_metadata))) writer
      ([sax_Key (key_prefix +:+ "sub_type_description");
         sax_String (sub_type_description incident_metadata)]) in
  let writer :=
    when (0 <? length (alertc_codes incident_metadata)) writer
      ([sax_Key (key_prefix +:+ "alertc_codes"); sax_StartArray] ++
         (sax_Uint64 <$> alertc_codes incident_metadata) ++ [sax_EndArray]) in
  let writer :=
    writer ++ [sax_Key (key_prefix +:+ "lanes_blocked"); sax_StartArray] ++
    (sax_String <$> lanes_blocked incident_metadata) ++ [sax_EndArray] in
  let writer :=
    when (negb (num_lanes_blocked incident_metadata =? 0)%Z) writer
      ([sax_Key (key_prefix +:+ "num_lanes_blocked");
         sax_Int (num_lanes_blocked incident_metadata)]) in
  let writer :=
    when (negb (is_empty (clear_lanes incident_metadata))) writer
      ([sax_Key (key_prefix +:+ "clear_lanes");
         sax_String (clear_lanes incident_metadata)]) in
  let writer :=
    when ((length_ incident_metadata >? 0)%Z) writer
      ([sax_Key (key_prefix +:+ "length");
         sax_Int (length_ incident_metadata)]) in
  let writer :=
    when (road_closed incident_metadata) writer
      ([sax_Key (key_prefix +:+ "closed");
         sax_Bool (road_closed incident_metadata)]) in
  let writer :=
    when (negb (is_empty road_class)) writer
      ([sax_Key (key_prefix +:+ "class"); sax_String road_class]) in
  let writer :=
    match congestion_value incident_metadata with
    | Some value =>
        when true writer
          [sax_Key (key_prefix +:+ "congestion"); sax_StartObject;
           sax_Key "value"; sax_Int value; sax_EndObject]
    | None => writer
    end in
  let writer :=
    when ((begin_shape_index >=? 0)%Z) writer
      ([sax_Key (key_prefix +:+ "geometry_index_start");
         sax_Int begin_shape_index]) in
  let writer :=
    when ((end_shape_index >=? 0)%Z) writer
      ([sax_Key (key_prefix +:+ "geometry_index_end");
         sax_Int end_shape_index]) in
  writer.

End Incidents.

(** ** Notions used in the statements about incidents *)







(** An incident for examples. *)
Definition sample_incident : Metadata :=
  mkMetadata 7 1 "DE" "" "roadworks" "" 0 100 0 2 "" "" [701%Z] ["1"; "2"] 2 "" 0 true
    (Some 3%Z).

Definition sample_incident_text : IncidentText :=
  {| to_string := fun _ => "7";
     incidentTypeToString := fun _ => "CONSTRUCTION";
     incidentImpactToString := fun _ => "LOW";
     seconds_to_date_utc := fun _ => "1970-01-01T00:01:40Z" |}.

End Incidents.

(** * Properties *)

Section Properties.

Context `{Collaborators}.

Implicit Types (e : Edge) (n : Node) (nodes : list Node) (leg : TripLeg).
Implicit Types (shp : list PointLL) (request : Api).

(** ** The loop of [openlr_edges] *)

(** What is already in the vector stays in front. *)
Lemma openlr_edges_loop_acc shp nodes (openlrs : list string) :
  openlr_edges_loop shp nodes openlrs =
  (openlrs ++.) <$> openlr_edges_loop shp nodes [].
Proof.
  revert openlrs. induction nodes as [|n nodes IH]; intros openlrs; simpl.
  - by rewrite app_nil_r.
  - destruct (edge n) as [e|]; simpl; [|by rewrite app_nil_r].
    destruct (edge_openlr shp e) as [s|]; simpl; [|done].
    rewrite (IH (openlrs ++ [s])), (IH [s]).
    destruct (openlr_edges_loop shp nodes []) as [out|]; simpl; [|done].
    by rewrite <-app_assoc.
Qed.

(** The loop encodes the leading edges, one after the other. *)
Lemma openlr_edges_loop_leading shp nodes :
  openlr_edges_loop shp nodes [] = mapM (edge_openlr shp) (leading_edges nodes).
Proof.
  induction nodes as [|n nodes IH]; simpl; [done|].
  destruct (edge n) as [e|]; simpl; [|done].
  destruct (edge_openlr shp e) as [s|]; simpl; [|done].
  rewrite openlr_edges_loop_acc, IH.
  by destruct (mapM _ _).
Qed.

Lemma openlr_edges_leading leg :
  openlr_edges leg = mapM (edge_openlr (decode (shape leg))) (leading_edges (node leg)).
Proof. apply openlr_edges_loop_leading. Qed.

Lemma leading_edges_app pre rest :
  Forall (fun n => is_Some (edge n)) pre ->
  leading_edges (pre ++ rest) = all_edges pre ++ leading_edges rest.
Proof.
  induction 1 as [|n pre [e He] _ IH]; simpl; [done|].
  unfold all_edges in *. simpl. rewrite He. simpl. by rewrite IH.
Qed.

Lemma leading_edges_edgeless nodes :
  Forall (fun n => edge n = None) nodes -> leading_edges nodes = [].
Proof. destruct 1 as [|n nodes Hn _]; simpl; [done|]. by rewrite Hn. Qed.

Lemma all_edges_edgeless nodes :
  Forall (fun n => edge n = None) nodes -> all_edges nodes = [].
Proof.
  induction 1 as [|n nodes Hn _ IH]; unfold all_edges in *; simpl; [done|].
  by rewrite Hn.
Qed.

Lemma all_edges_length pre :
  Forall (fun n => is_Some (edge n)) pre -> length (all_edges pre) = length pre.
Proof.
  induction 1 as [|n pre [e He] _ IH]; unfold all_edges in *; simpl; [done|].
  rewrite He. simpl. by f_equal.
Qed.

Lemma edge_lrps_is_Some shp e : edge_in_shape shp e -> is_Some (edge_lrps shp e).
Proof.
  intros [Hb He]. unfold edge_lrps.
  destruct (lookup_lt_is_Some_2 shp _ Hb) as [p ->].
  destruct (lookup_lt_is_Some_2 shp _ He) as [q ->].
  simpl. eauto.
Qed.

Lemma edge_openlr_is_Some shp e : edge_in_shape shp e -> is_Some (edge_openlr shp e).
Proof.
  intros Hin. unfold edge_openlr.
  destruct (edge_lrps_is_Some shp e Hin) as [l ->]. simpl. eauto.
Qed.

Lemma openlr_edges_is_Some leg :
  Forall (edge_in_shape (decode (shape leg))) (leading_edges (node leg)) ->
  is_Some (openlr_edges leg).
Proof.
  intros Hin. rewrite openlr_edges_leading. apply mapM_is_Some.
  eapply Forall_impl; [exact Hin|]. intros e He. by apply edge_openlr_is_Some.
Qed.

Lemma leading_edges_lookup nodes i e :
  leading_edges nodes !! i = Some e ->
  exists n, nodes !! i = Some n /\ edge n = Some e.
Proof.
  revert i. induction nodes as [|n nodes IH]; intros i; simpl; [done|].
  destruct (edge n) as [e'|] eqn:He; [|done].
  destruct i as [|i]; simpl.
  - intros [= ->]. eauto.
  - apply IH.
Qed.

(** The two points built for an edge, spelled out. *)
Lemma edge_lrps_Some shp e chain :
  edge_lrps shp e = Some chain ->
  exists p q,
    shp !! begin_shape_index e = Some p /\ shp !! end_shape_index e = Some q /\
    let frc := to_uint8 (road_class e) in
    let fow := road_class_to_fow e in
    let start :=
      mkLRP (lng p) (lat p)
        (tangent_angle (begin_shape_index e) p shp sample_distance_20 true
           (begin_shape_index e) (end_shape_index e))
        frc fow None (Some (fmul (length_km e) kMetersPerKm)) (Some frc) in
    chain =
      [start;
       mkLRP (lng q) (lat q)
         (tangent_angle (end_shape_index e) q shp sample_distance_20 false
            (begin_shape_index e) (end_shape_index e))
         frc fow (Some start) None None].
Proof.
  unfold edge_lrps. intros Hc.
  destruct (shp !! begin_shape_index e) as [p|]; simpl in Hc; [|done].
  destruct (shp !! end_shape_index e) as [q|]; simpl in Hc; [|done].
  injection Hc as <-. by exists p, q.
Qed.

(** ** Form of way and functional road class *)

(** C3: the form of way follows a fixed priority chain in which the first
    match wins: roundabout, then ramp or turn channel (slip road), then
    motorway, then traversable both ways (multiple carriageway), then
    traversable one way (single carriageway), and otherwise, with no
    traversability, other.  A roundabout of motorway class is a roundabout. *)
Theorem road_class_to_fow_priority e :
  (roundabout e = true -> road_class_to_fow e = ROUNDABOUT) /\
  (roundabout e = false ->
   use e = kRampUse \/ use e = kTurnChannelUse ->
   road_class_to_fow e = SLIPROAD) /\
  (roundabout e = false -> use e <> kRampUse -> use e <> kTurnChannelUse ->
   road_class e = kMotorway ->
   road_class_to_fow e = MOTORWAY) /\
  (roundabout e = false -> use e <> kRampUse -> use e <> kTurnChannelUse ->
   road_class e <> kMotorway -> traversability e = kBoth ->
   road_class_to_fow e = MULTIPLE_CARRIAGEWAY) /\
  (roundabout e = false -> use e <> kRampUse -> use e <> kTurnChannelUse ->
   road_class e <> kMotorway ->
   traversability e = kForward \/ traversability e = kBackward ->
   road_class_to_fow e = SINGLE_CARRIAGEWAY) /\
  (roundabout e = false -> use e <> kRampUse -> use e <> kTurnChannelUse ->
   road_class e <> kMotorway -> traversability e = kNone ->
   road_class_to_fow e = OTHER) /\
  (roundabout e = true /\ road_class e = kMotorway ->
   road_class_to_fow e = ROUNDABOUT).
Proof.
  unfold road_class_to_fow.
  destruct (roundabout e); repeat case_bool_decide; simpl;
    repeat split; intros; destruct_or?; destruct_and?; congruence.
Qed.

Lemma to_uint8_small (z : Z) : (0 <= z <= 255)%Z -> to_uint8 z = z.
Proof. intros Hz. unfold to_uint8. apply Z.mod_small. lia. Qed.

(** C4: the functional road class placed in both points of an edge is the
    edge's own road-class ordinal, cast directly and not looked up in a
    table; so the scale is kept: a smaller ordinal (a higher class) gives a
    smaller functional road class. *)
Theorem frc_is_road_class_ordinal shp e chain :
  (0 <= road_class e <= 255)%Z ->
  edge_lrps shp e = Some chain ->
  length chain = 2 /\
  Forall (fun p => lrp_frc p = road_class e) chain /\
  (forall e' chain' p p',
     (0 <= road_class e' <= 255)%Z ->
     edge_lrps shp e' = Some chain' ->
     p ∈ chain -> p' ∈ chain' ->
     (road_class e <= road_class e')%Z <-> (lrp_frc p <= lrp_frc p')%Z).
Proof.
  intros Hrange Hchain.
  assert (forall e1 c1, (0 <= road_class e1 <= 255)%Z ->
            edge_lrps shp e1 = Some c1 ->
            length c1 = 2 /\ Forall (fun p => lrp_frc p = road_class e1) c1)
    as Hall.
  { intros e1 c1 H1 Hc1.
    destruct (edge_lrps_Some _ _ _ Hc1) as (p & q & _ & _ & ->).
    split; [done|]. repeat constructor; simpl; by apply to_uint8_small. }
  destruct (Hall _ _ Hrange Hchain) as [Hlen Hfrc].
  split; [done|]. split; [done|].
  intros e' chain' p p' Hrange' Hchain' Hp Hp'.
  destruct (Hall _ _ Hrange' Hchain') as [_ Hfrc'].
  rewrite Forall_forall in Hfrc, Hfrc'.
  by rewrite (Hfrc _ Hp), (Hfrc' _ Hp').
Qed.

(** ** The references of a leg *)

(** C2: every string that the encoder returns is the encoding of a chain of
    exactly two points with both offsets zero, built from the edge of the
    node at the same position: the start point carries the edge length times
    [kMetersPerKm] as its distance to the next point and the edge's own
    functional road class as the lowest class to the next point; the end
    point refers back to the start point and is given neither a distance nor
    a lowest class. *)
Theorem openlr_edges_two_point_chain leg out i s :
  openlr_edges leg = Some out ->
  out !! i = Some s ->
  exists n e start end_,
    node leg !! i = Some n /\ edge n = Some e /\
    edge_lrps (decode (shape leg)) e = Some [start; end_] /\
    s = toBase64 (mkOpenLr [start; end_] 0 0) /\
    lrp_prev start = None /\
    lrp_distance start = Some (fmul (length_km e) kMetersPerKm) /\
    lrp_lfrcnp start = Some (lrp_frc start) /\
    lrp_frc start = to_uint8 (road_class e) /\
    lrp_prev end_ = Some start /\
    lrp_distance end_ = None /\
    lrp_lfrcnp end_ = None.
Proof.
  rewrite openlr_edges_leading. intros Hout Hi.
  apply mapM_Some_1 in Hout.
  destruct (Forall2_lookup_r _ _ _ _ _ Hout Hi) as (e & He & Hs).
  destruct (leading_edges_lookup _ _ _ He) as (n & Hn & Hne).
  unfold edge_openlr in Hs.
  destruct (edge_lrps (decode (shape leg)) e) as [chain|] eqn:Hchain; [|done].
  simpl in Hs. injection Hs as <-.
  destruct (edge_lrps_Some _ _ _ Hchain) as (p & q & _ & _ & Heq).
  simpl in Heq. subst chain.
  eexists n, e, _, _. repeat split; try done.
Qed.

(** C1, amended: for a leg whose nodes are edge-bearing nodes followed only
    by edge-less ones (the final node of the leg), the encoder returns
    exactly one string per edge of the leg, in the order of the nodes; the
    edge-less nodes add no entry, so that N edges give N strings and not
    N+1.  The result exists when the edges index into the decoded shape. *)
Theorem openlr_edges_one_per_edge leg pre tail :
  node leg = pre ++ tail ->
  Forall (fun n => is_Some (edge n)) pre ->
  Forall (fun n => edge n = None) tail ->
  openlr_edges leg =
    mapM (edge_openlr (decode (shape leg))) (all_edges (node leg)) /\
  (forall out, openlr_edges leg = Some out ->
     Forall2 (fun e s => edge_openlr (decode (shape leg)) e = Some s)
       (all_edges (node leg)) out /\
     length out = length (all_edges (node leg)) /\
     length out = length pre /\
     length out <> S (length pre)) /\
  (Forall (edge_in_shape (decode (shape leg))) (all_edges (node leg)) ->
   is_Some (openlr_edges leg)).
Proof.
  intros Hnode Hpre Htail.
  assert (leading_edges (node leg) = all_edges (node leg)) as Hlead.
  { rewrite Hnode, (leading_edges_app _ _ Hpre), (leading_edges_edgeless _ Htail).
    unfold all_edges. rewrite omap_app.
    fold (all_edges tail). by rewrite (all_edges_edgeless _ Htail). }
  assert (length (all_edges (node leg)) = length pre) as Hn.
  { rewrite Hnode. unfold all_edges. rewrite omap_app, length_app.
    fold (all_edges pre) (all_edges tail).
    rewrite (all_edges_edgeless _ Htail), (all_edges_length _ Hpre). simpl. lia. }
  rewrite openlr_edges_leading, Hlead.
  split; [done|]. split.
  - intros out Hout. apply mapM_Some_1 in Hout.
    pose proof (Forall2_length _ _ _ Hout) as Hlen.
    repeat split; [done|lia..].
  - intros Hin. apply mapM_is_Some. eapply Forall_impl; [exact Hin|].
    intros e He. by apply edge_openlr_is_Some.
Qed.

(** C9: the encoder stops at the first node without an edge.  When such a
    node is followed by further nodes, these add nothing, whether they have
    edges or not: the result is the one for the nodes in front of it, one
    string for each of them. *)
Theorem openlr_edges_stops_at_first_edgeless leg pre n post :
  node leg = pre ++ n :: post ->
  Forall (fun n => is_Some (edge n)) pre ->
  edge n = None ->
  openlr_edges leg = openlr_edges (mkTripLeg (shape leg) pre) /\
  openlr_edges leg = mapM (edge_openlr (decode (shape leg))) (all_edges pre) /\
  (forall out, openlr_edges leg = Some out -> length out = length pre) /\
  (Forall (edge_in_shape (decode (shape leg))) (all_edges pre) ->
   is_Some (openlr_edges leg)).
Proof.
  intros Hnode Hpre Hn.
  assert (leading_edges (node leg) = all_edges pre) as Hlead.
  { rewrite Hnode, (leading_edges_app _ _ Hpre). simpl. rewrite Hn.
    by rewrite app_nil_r. }
  assert (leading_edges pre = all_edges pre) as Hlead'.
  { rewrite <-(app_nil_r pre) at 1. rewrite (leading_edges_app _ _ Hpre).
    simpl. by rewrite app_nil_r. }
  repeat split.
  - rewrite !openlr_edges_leading. simpl. by rewrite Hlead, Hlead'.
  - by rewrite openlr_edges_leading, Hlead.
  - intros out. rewrite openlr_edges_leading, Hlead. intros Hout.
    apply length_mapM in Hout. by rewrite <-Hout, all_edges_length.
  - intros Hin. apply openlr_edges_is_Some. by rewrite Hlead.
Qed.

(** ** Protobuf output *)

Ltac run_serializePbf :=
  unfold serializePbf, bind, ret, get, throw, when, mutable_options_Swap,
    clear_trip, clear_directions, clear_status, clear_options, clear_matrix,
    modify, has_pbf_field_selector, pbf_field_selector, has_info, info, options
    in *;
  simpl in *.

(** With an explicit selection the call returns, whatever the action: the
    bytes are those of the selected parts, and the request keeps its
    options exactly when they are selected or it is a service request. *)
Lemma serializePbf_explicit request sel :
  pbf_field_selector_ (options request) = Some sel ->
  serializePbf request =
    (Returns (SerializeAsString (selected sel request)),
     mkApi (if sel_options sel then options_ request
            else if has_info request && is_service (info request)
                 then Some (options request) else None)
           (trip_ (selected sel request)) (directions_ (selected sel request))
           (status_ (selected sel request)) (matrix_ (selected sel request))
           (info_ request)).
Proof.
  destruct request as [[[act lr [sel'|]]|] t d st m i]; run_serializePbf;
    intros [= ->]; [|done..].
  destruct sel as [[] [] [] [] []], i as [[[]]|]; reflexivity.
Qed.

(** Without an explicit selection the switch on the action decides: it
    agrees with [default_selection], and throws where that has no entry,
    before the request is touched. *)
Lemma serializePbf_inferred request :
  has_pbf_field_selector (options request) = false ->
  serializePbf request =
    match default_selection (action (options request)) with
    | Some sel =>
        (Returns (SerializeAsString (selected sel request)),
         mkApi (if has_info request && is_service (info request)
                then Some (options request) else None)
               (trip_ (selected sel request)) (directions_ (selected sel request))
               (status_ (selected sel request)) (matrix_ (selected sel request))
               (info_ request))
    | None => (Throws not_serializable, request)
    end.
Proof.
  destruct request as [[[act lr [sel'|]]|] t d st m i]; run_serializePbf;
    intros Hsel; try done.
  - destruct act, i as [[[]]|]; reflexivity.
  - destruct default_action, i as [[[]]|]; reflexivity.
Qed.

(** C6: without an explicit selection, the selection follows from the action
    alone.  For route, centroid, optimized route and trace route the bytes
    are those of the request with only its directions; for trace attributes,
    with only its trip; for status, with only its status; for
    sources-to-targets, with only its matrix.  The options, the trip, the
    directions, the status and the matrix are cleared unless selected. *)
Theorem serializePbf_inferred_selection request :
  has_pbf_field_selector (options request) = false ->
  (action (options request) ∈
     [Options_route; Options_centroid; Options_optimized_route; Options_trace_route] ->
   fst (serializePbf request) =
   Returns (SerializeAsString
              (mkApi None None (directions_ request) None None (info_ request)))) /\
  (action (options request) = Options_trace_attributes ->
   fst (serializePbf request) =
   Returns (SerializeAsString
              (mkApi None (trip_ request) None None None (info_ request)))) /\
  (action (options request) = Options_status ->
   fst (serializePbf request) =
   Returns (SerializeAsString
              (mkApi None None None (status_ request) None (info_ request)))) /\
  (action (options request) = Options_sources_to_targets ->
   fst (serializePbf request) =
   Returns (SerializeAsString
              (mkApi None None None None (matrix_ request) (info_ request)))).
Proof.
  intros Hsel. rewrite (serializePbf_inferred _ Hsel).
  repeat split; intros Hact.
  - rewrite !elem_of_cons, elem_of_nil in Hact.
    destruct Hact as [-> | [-> | [-> | [-> | []]]]]; reflexivity.
  - by rewrite Hact.
  - by rewrite Hact.
  - by rewrite Hact.
Qed.

(** C7, as amended: when the request carries no explicit selection, an
    action that the switch does not name makes [serializePbf] throw; no
    bytes are returned and the request is left as it was. *)
Theorem serializePbf_unsupported_action request tag :
  has_pbf_field_selector (options request) = false ->
  action (options request) = Options_other_action tag ->
  serializePbf request = (Throws not_serializable, request) /\
  (forall bytes, fst (serializePbf request) <> Returns bytes).
Proof.
  intros Hsel Hact. rewrite (serializePbf_inferred _ Hsel), Hact. simpl.
  split; [done|]. by intros bytes.
Qed.

(** C10: with an explicit selection in the options, [serializePbf] never
    throws, whatever the action: the switch on the action is not run, and
    the bytes are those of the request under the given selection. *)
Theorem serializePbf_explicit_selection_never_throws request sel :
  pbf_field_selector_ (options request) = Some sel ->
  fst (serializePbf request) = Returns (SerializeAsString (selected sel request)) /\
  (forall exn, fst (serializePbf request) <> Throws exn).
Proof.
  intros Hsel. rewrite (serializePbf_explicit _ _ Hsel). simpl.
  split; [done|]. by intros exn.
Qed.

(** C8: when the selection leaves out the options and the request comes
    from the service itself, the options are taken out for the serialisation
    and put back after it.  However the call ends, the request then holds
    the options it held before; the bytes returned are those of a request
    without options; and when the call throws, the request is unchanged. *)
Theorem serializePbf_keeps_options request o i :
  options_ request = Some o ->
  sel_options (pbf_field_selector o) = false ->
  info_ request = Some i ->
  is_service i = true ->
  options_ (snd (serializePbf request)) = Some o /\
  (forall bytes, fst (serializePbf request) = Returns bytes ->
     exists sent, bytes = SerializeAsString sent /\ options_ sent = None) /\
  (forall exn, fst (serializePbf request) = Throws exn ->
     snd (serializePbf request) = request).
Proof.
  intros Ho Hsel Hi Hservice.
  assert (options request = o) as Hopt by (unfold options; by rewrite Ho).
  assert (has_info request && is_service (info request) = true) as Hskip.
  { unfold has_info, info. rewrite Hi. simpl. by rewrite Hservice. }
  destruct (pbf_field_selector_ o) as [sel|] eqn:Hexplicit.
  - rewrite (serializePbf_explicit request sel) by by rewrite Hopt.
    unfold pbf_field_selector in Hsel. rewrite Hexplicit in Hsel. simpl in *.
    rewrite Hsel, Hskip, Hopt. split; [done|]. split; [|intros exn Hx; discriminate Hx].
    intros bytes [= <-]. eexists. split; [done|]. simpl. by rewrite Hsel.
  - rewrite serializePbf_inferred
      by (unfold has_pbf_field_selector; rewrite Hopt, Hexplicit;
          apply bool_decide_eq_false_2; by intros [? ?]).
    destruct (default_selection (action (options request))) as [sel|] eqn:Hdef; simpl.
    + rewrite Hskip, Hopt. split; [done|]. split; [|intros exn Hx; discriminate Hx].
      intros bytes [= <-]. eexists. split; [done|]. simpl.
      rewrite Hopt in Hdef. by destruct (action o); simplify_eq/=.
    + split; [done|]. split; [done|]. by intros exn _.
Qed.

(** ** Linear references in the JSON responses *)

Lemma linear_reference_flag (o : Options) :
  linear_references o &&
  (bool_decide (action o = Options_trace_route) ||
   bool_decide (action o = Options_route)) = true <->
  linear_references_wanted o.
Proof.
  unfold linear_references_wanted.
  rewrite andb_true_iff, orb_true_iff, !bool_decide_eq_true. tauto.
Qed.

Lemma route_references_loop_spec (ls : list TripLeg) (references : list json) :
  route_references_loop ls references =
  (fun refs => references ++ (Jstring <$> concat refs)) <$> mapM openlr_edges ls.
Proof.
  revert references. induction ls as [|leg ls IH]; intros references; simpl.
  - by rewrite app_nil_r.
  - destruct (openlr_edges leg) as [out|]; simpl; [|done].
    rewrite IH. destruct (mapM openlr_edges ls) as [refs|]; simpl; [|done].
    by rewrite fmap_app, app_assoc.
Qed.

Lemma openlr_write_leg_spec (openlrs : list string) (writer : writer_wrapper_t) :
  openlr_write_leg openlrs writer = writer ++ (ev_String <$> openlrs).
Proof.
  unfold openlr_write_leg. revert writer.
  induction openlrs as [|s openlrs IH]; intros writer; simpl.
  - by rewrite app_nil_r.
  - rewrite IH. unfold write_string. by rewrite <-app_assoc.
Qed.

Lemma openlr_loop_spec (ls : list TripLeg) (writer : writer_wrapper_t) :
  openlr_loop ls writer =
  (fun refs => writer ++ (ev_String <$> concat refs)) <$> mapM openlr_edges ls.
Proof.
  revert writer. induction ls as [|leg ls IH]; intros writer; simpl.
  - by rewrite app_nil_r.
  - destruct (openlr_edges leg) as [out|]; simpl; [|done].
    rewrite IH, openlr_write_leg_spec.
    destruct (mapM openlr_edges ls) as [refs|]; simpl; [|done].
    by rewrite fmap_app, app_assoc.
Qed.

Lemma mapM_openlr_edges_is_Some (ls : list TripLeg) :
  Forall leg_in_shape ls -> is_Some (mapM openlr_edges ls).
Proof.
  intros Hin. apply mapM_is_Some. eapply Forall_impl; [exact Hin|].
  intros leg Hleg. by apply openlr_edges_is_Some.
Qed.

Lemma route_references_unwanted (route_json : gmap string json) route o :
  ~ linear_references_wanted o ->
  route_references route_json route o = Some route_json.
Proof.
  intros Hno. unfold route_references.
  destruct (linear_references o && _) eqn:Hflag; [|done].
  by apply linear_reference_flag in Hflag.
Qed.

Lemma route_references_wanted (route_json : gmap string json) route o :
  linear_references_wanted o ->
  route_references route_json route o =
  (fun refs => emplace "linear_references" (Jarray (Jstring <$> concat refs)) route_json)
    <$> mapM openlr_edges (legs route).
Proof.
  intros Hyes. apply linear_reference_flag in Hyes.
  unfold route_references. rewrite Hyes. simpl.
  rewrite route_references_loop_spec.
  by destruct (mapM openlr_edges (legs route)).
Qed.

Lemma openlr_unwanted api route_index (writer : writer_wrapper_t) :
  ~ linear_references_wanted (options api) ->
  openlr api route_index writer = Some writer.
Proof.
  intros Hno. unfold openlr.
  destruct (linear_references (options api)) eqn:Hlr; [|done].
  destruct (bool_decide (action (options api) = Options_trace_route)) eqn:Ht;
    [apply bool_decide_eq_true in Ht; destruct Hno; split; auto|].
  destruct (bool_decide (action (options api) = Options_route)) eqn:Hr;
    [apply bool_decide_eq_true in Hr; destruct Hno; split; auto|].
  done.
Qed.

Lemma openlr_wanted api route_index (writer : writer_wrapper_t) :
  linear_references_wanted (options api) ->
  openlr api route_index writer =
  r ← routes_at (trip api) route_index;
  (fun refs => writer ++ [ev_Key "linear_references"; ev_StartArray] ++
               (ev_String <$> concat refs) ++ [ev_EndArray])
    <$> mapM openlr_edges (legs r).
Proof.
  intros [Hlr Hact]. unfold openlr. rewrite Hlr. simpl.
  assert (negb (bool_decide (action (options api) = Options_trace_route)) &&
          negb (bool_decide (action (options api) = Options_route)) = false) as ->.
  { destruct Hact as [-> | ->]; by repeat case_bool_decide. }
  destruct (routes_at (trip api) route_index) as [r|]; simpl; [|done].
  rewrite openlr_loop_spec.
  destruct (mapM openlr_edges (legs r)) as [refs|]; simpl; [|done].
  unfold end_array, start_array. by rewrite <-!app_assoc.
Qed.

(** C5: on both JSON paths the field "linear_references" is attached if
    and only if linear references were requested and the action is route or
    trace_route.  Otherwise the output is returned as it was given, and
    that is not an error.  When attached, the field holds the references of
    all legs of the route, in order. *)
Theorem linear_references_iff_wanted
    (route_json : gmap string json) (route : TripRoute) (o : Options)
    (api : Api) (route_index : Z) (writer : writer_wrapper_t) :
  (~ linear_references_wanted o ->
   route_references route_json route o = Some route_json) /\
  (linear_references_wanted o -> Forall leg_in_shape (legs route) ->
   exists refs,
     mapM openlr_edges (legs route) = Some refs /\
     route_references route_json route o =
       Some (emplace "linear_references" (Jarray (Jstring <$> concat refs)) route_json)) /\
  (route_json !! "linear_references" = None ->
   forall out, route_references route_json route o = Some out ->
     is_Some (out !! "linear_references") <-> linear_references_wanted o) /\
  (~ linear_references_wanted (options api) ->
   openlr api route_index writer = Some writer) /\
  (linear_references_wanted (options api) ->
   forall r, routes_at (trip api) route_index = Some r ->
     Forall leg_in_shape (legs r) ->
     exists refs,
       mapM openlr_edges (legs r) = Some refs /\
       openlr api route_index writer =
         Some (writer ++ [ev_Key "linear_references"; ev_StartArray] ++
               (ev_String <$> concat refs) ++ [ev_EndArray])) /\
  (ev_Key "linear_references" ∉ writer ->
   forall out, openlr api route_index writer = Some out ->
     ev_Key "linear_references" ∈ out <-> linear_references_wanted (options api)).
Proof.
  split; [apply route_references_unwanted|].
  split.
  { intros Hyes Hin. rewrite (route_references_wanted _ _ _ Hyes).
    destruct (mapM_openlr_edges_is_Some _ Hin) as [refs ->]. by exists refs. }
  split.
  { intros Hfresh out Hout. split.
    - intros Hfield. destruct (decide (linear_references o = true)) as [Hlr|Hlr].
      + destruct (decide (action o = Options_route)) as [Hr|Hr]; [by split; auto|].
        destruct (decide (action o = Options_trace_route)) as [Ht|Ht]; [by split; auto|].
        rewrite route_references_unwanted in Hout by (intros [_ [?|?]]; done).
        injection Hout as <-. rewrite Hfresh in Hfield. by destruct Hfield.
      + rewrite route_references_unwanted in Hout by (intros [? _]; done).
        injection Hout as <-. rewrite Hfresh in Hfield. by destruct Hfield.
    - intros Hyes. rewrite (route_references_wanted _ _ _ Hyes) in Hout.
      destruct (mapM openlr_edges (legs route)) as [refs|]; simpl in Hout; [|done].
      injection Hout as <-. unfold emplace. rewrite Hfresh, lookup_insert_eq.
      by eexists. }
  split; [apply openlr_unwanted|].
  split.
  { intros Hyes r Hr Hin. rewrite (openlr_wanted _ _ _ Hyes), Hr. simpl.
    destruct (mapM_openlr_edges_is_Some _ Hin) as [refs ->]. by exists refs. }
  intros Hfresh out Hout. split.
  - intros Hfield. destruct (decide (linear_references (options api) = true)) as [Hlr|Hlr].
    + destruct (decide (action (options api) = Options_route)) as [Hr|Hr];
        [by split; auto|].
      destruct (decide (action (options api) = Options_trace_route)) as [Ht|Ht];
        [by split; auto|].
      rewrite openlr_unwanted in Hout by (intros [_ [?|?]]; done).
      by injection Hout as <-.
    + rewrite openlr_unwanted in Hout by (intros [? _]; done).
      by injection Hout as <-.
  - intros Hyes. rewrite (openlr_wanted _ _ _ Hyes) in Hout.
    destruct (routes_at (trip api) route_index) as [r|]; simpl in Hout; [|done].
    destruct (mapM openlr_edges (legs r)) as [refs|]; simpl in Hout; [|done].
    injection Hout as <-. rewrite !elem_of_app, !elem_of_cons. auto.
Qed.

End Properties.

(** * The properties at the sample instance *)

Section Examples.

#[local] Existing Instance Sample.payloads.
#[local] Existing Instance Sample.collaborators.

Import Sample.

Example openlr_edges_leg_regular : openlr_edges leg_regular = Some ["ab"; "bc"].
Proof. reflexivity. Qed.

Example road_class_to_fow_edge_bc : road_class_to_fow edge_bc = ROUNDABOUT.
Proof. reflexivity. Qed.

Example serializePbf_request_route :
  serializePbf request_route =
  (Returns "DI",
   mkApi (Some (mkOptions Options_route true None)) None (Some ()) None None
         (Some (mkInfo true))).
Proof. reflexivity. Qed.

(** Scenario B: trace attributes with linear references requested. *)
Example openlr_request_attributes : openlr request_attributes 0 [] = Some [].
Proof. reflexivity. Qed.

Example openlr_request_route :
  openlr request_route 0 [] =
  Some [ev_Key "linear_references"; ev_StartArray;
        ev_String "ab"; ev_String "bc"; ev_EndArray].
Proof. reflexivity. Qed.

Example route_references_request_route :
  route_references ∅ (mkTripRoute [leg_regular]) (options request_route) =
  Some {["linear_references" := Jarray [Jstring "ab"; Jstring "bc"]]}.
Proof. reflexivity. Qed.

(** A leg of two edges whose second node has no edge: the final node has no
    edge either and every index lies in the shape, but the encoder returns
    one string for the two edges. *)
Lemma openlr_edges_gap_counterexample :
  all_edges (node leg_gap) = [edge_ab; edge_bc] /\
  (edge <$> last (node leg_gap)) = Some None /\
  length (decode (shape leg_gap)) = 3 /\
  openlr_edges leg_gap = Some ["ab"].
Proof. repeat split. Qed.

Lemma openlr_edges_one_per_edge_witness :
  openlr_edges leg_regular =
    mapM (edge_openlr (decode "abc")) [edge_ab; edge_bc] /\
  is_Some (openlr_edges leg_regular).
Proof.
  destruct (openlr_edges_one_per_edge leg_regular
              [with_edge edge_ab; with_edge edge_bc] [no_edge])
    as (Heq & _ & Hsome).
  - reflexivity.
  - repeat constructor; by eexists.
  - by repeat constructor.
  - split; [exact Heq|]. apply Hsome. repeat constructor.
Defined.

Lemma openlr_edges_stops_at_first_edgeless_witness :
  openlr_edges leg_gap = openlr_edges (mkTripLeg "abc" [with_edge edge_ab]) /\
  is_Some (openlr_edges leg_gap).
Proof.
  destruct (openlr_edges_stops_at_first_edgeless leg_gap
              [with_edge edge_ab] no_edge [with_edge edge_bc; no_edge])
    as (Hsame & _ & _ & Hsome).
  - reflexivity.
  - repeat constructor; by eexists.
  - reflexivity.
  - split; [exact Hsame|]. apply Hsome. repeat constructor.
Defined.

Lemma openlr_edges_two_point_chain_witness :
  exists start end_,
    edge_lrps (decode "abc") edge_bc = Some [start; end_] /\
    lrp_distance start = Some 5000%Z /\
    lrp_lfrcnp start = Some 0%Z /\
    lrp_prev end_ = Some start /\
    lrp_distance end_ = None /\
    lrp_lfrcnp end_ = None.
Proof.
  destruct (openlr_edges_two_point_chain leg_regular ["ab"; "bc"] 1 "bc")
    as (n & e & start & end_ & Hn & He & Hchain & _ & _ & Hd & Hl & Hf & Hp & Hd' & Hl').
  - reflexivity.
  - reflexivity.
  - injection Hn as <-. injection He as <-.
    exists start, end_. rewrite Hl, Hf. by repeat split.
Defined.

Lemma frc_is_road_class_ordinal_witness :
  exists chain,
    edge_lrps (decode "abc") edge_ab = Some chain /\
    length chain = 2 /\
    Forall (fun p => lrp_frc p = 3%Z) chain.
Proof.
  set (chain := default [] (edge_lrps (decode "abc") edge_ab)).
  exists chain.
  assert ((0 <= road_class edge_ab <= 255)%Z) as Hrange by (simpl; lia).
  assert (edge_lrps (decode "abc") edge_ab = Some chain) as Hchain by reflexivity.
  destruct (frc_is_road_class_ordinal _ _ _ Hrange Hchain) as (Hlen & Hfrc & _).
  by repeat split.
Defined.

Lemma serializePbf_inferred_selection_witness :
  has_pbf_field_selector (options request_route) = false /\
  fst (serializePbf request_route) =
  Returns (SerializeAsString (mkApi None None (Some ()) None None (Some (mkInfo true)))).
Proof.
  split; [reflexivity|].
  destruct (serializePbf_inferred_selection request_route eq_refl) as (Hroute & _).
  apply Hroute. by constructor.
Defined.

(** An action that the switch does not name, requested with an explicit
    selection: the call returns bytes and does not throw. *)
Lemma serializePbf_selected_counterexample :
  action (options request_selected) = Options_other_action 2 /\
  default_selection (action (options request_selected)) = None /\
  serializePbf request_selected =
  (Returns "DI",
   mkApi (Some (options request_selected)) None (Some ()) None None (Some (mkInfo true))).
Proof. repeat split. Qed.

Lemma serializePbf_unsupported_action_witness :
  serializePbf request_unselected = (Throws not_serializable, request_unselected).
Proof.
  by destruct (serializePbf_unsupported_action request_unselected 2 eq_refl eq_refl).
Defined.

Lemma serializePbf_explicit_selection_never_throws_witness :
  fst (serializePbf request_selected) = Returns "DI".
Proof.
  by destruct (serializePbf_explicit_selection_never_throws request_selected
                 (mkPbfFieldSelector false false true false false) eq_refl).
Defined.

Lemma serializePbf_keeps_options_witness :
  options_ (snd (serializePbf request_route)) = options_ request_route /\
  fst (serializePbf request_route) = Returns "DI".
Proof.
  destruct (serializePbf_keeps_options request_route
              (mkOptions Options_route true None) (mkInfo true)
              eq_refl eq_refl eq_refl eq_refl) as (Hkept & _ & _).
  split; [exact Hkept|reflexivity].
Defined.

End Examples.

(** * Further properties of the serializers *)

Section Further.

Context `{Collaborators}.

Implicit Types (e : Edge) (request : Api) (route : TripRoute).

(** The form of way of an edge is never left undefined, and never a
    traffic square. *)
Theorem road_class_to_fow_defined e :
  road_class_to_fow e <> UNDEFINED /\ road_class_to_fow e <> TRAFFICSQUARE.
Proof.
  unfold road_class_to_fow.
  destruct (roundabout e); repeat case_bool_decide; simpl; by split.
Qed.

(** [route_references] touches one key only: every other key of the object
    keeps its value, and an object that already holds "linear_references"
    is returned as it is. *)
Theorem route_references_frame (route_json out : gmap string json) route (o : Options) :
  route_references route_json route o = Some out ->
  (forall k, k <> "linear_references" -> out !! k = route_json !! k) /\
  (is_Some (route_json !! "linear_references") -> out = route_json).
Proof.
  unfold route_references. intros Hout.
  destruct (negb _); [by injection Hout as <-|].
  destruct (route_references_loop _ _) as [refs|]; simpl in Hout; [|done].
  injection Hout as <-. unfold emplace. split.
  - intros k Hk. destruct (route_json !! "linear_references"); [done|].
    by rewrite lookup_insert_ne.
  - by intros [v ->].
Qed.

(** The two JSON paths agree: for the route at the index, [openlr] writes
    exactly the strings that [route_references] puts into the array, in the
    same order, and one has a result exactly when the other has. *)
Theorem route_references_openlr_agree (api : Api) (route_index : Z) route
    (refs : list string) :
  routes_at (trip api) route_index = Some route ->
  (route_references ∅ route (options api) =
     Some {["linear_references" := Jarray (Jstring <$> refs)]} <->
   openlr api route_index [] =
     Some ([ev_Key "linear_references"; ev_StartArray] ++
           (ev_String <$> refs) ++ [ev_EndArray])) /\
  (is_Some (route_references ∅ route (options api)) <->
   is_Some (openlr api route_index [])).
Proof.
  intros Hroute.
  assert (Inj (=) (=) Jstring) as Hinj1 by (intros ?? [=]; done).
  assert (Inj (=) (=) ev_String) as Hinj2 by (intros ?? [=]; done).
  destruct (decide (linear_references (options api) = true)) as [Hlr|Hlr];
    [destruct (decide (action (options api) = Options_route)) as [Hr|Hr];
     [|destruct (decide (action (options api) = Options_trace_route)) as [Ht|Ht]]|].
  1,2: assert (linear_references_wanted (options api)) as Hyes by (split; auto);
       rewrite (route_references_wanted _ _ _ Hyes), (openlr_wanted _ _ _ Hyes), Hroute;
       simpl; destruct (mapM openlr_edges (legs route)) as [rs|]; simpl;
       [|split; split; by (intros [? ?] || intros ?)];
       split; [|split; intros _; by eexists];
       unfold emplace; rewrite lookup_empty, insert_empty;
       split; intros Heq.
  - apply (inj Some), (inj (singletonM _)) in Heq. injection Heq as Heq.
    apply (inj (fmap Jstring)) in Heq. by subst.
  - injection Heq as Heq. apply app_inv_tail in Heq.
    apply (inj (fmap ev_String)) in Heq. by subst.
  - apply (inj Some), (inj (singletonM _)) in Heq. injection Heq as Heq.
    apply (inj (fmap Jstring)) in Heq. by subst.
  - injection Heq as Heq. apply app_inv_tail in Heq.
    apply (inj (fmap ev_String)) in Heq. by subst.
  - rewrite route_references_unwanted, openlr_unwanted by (intros [_ [?|?]]; done).
    split; [|split; intros _; by eexists].
    split; intros Heq; [|done].
    apply (inj Some) in Heq. symmetry in Heq. by apply map_non_empty_singleton in Heq.
  - rewrite route_references_unwanted, openlr_unwanted by (intros [? _]; done).
    split; [|split; intros _; by eexists].
    split; intros Heq; [|done].
    apply (inj Some) in Heq. symmetry in Heq. by apply map_non_empty_singleton in Heq.
Qed.

(** [serializePbf] only removes: the trip, the directions, the status and
    the matrix of the request are afterwards as before or unset, the info
    is untouched, and the options are as before, unset, or (after the swap
    back) the options the request answered with. *)
Theorem serializePbf_only_clears request :
  let after := snd (serializePbf request) in
  info_ after = info_ request /\
  (trip_ after = trip_ request \/ trip_ after = None) /\
  (directions_ after = directions_ request \/ directions_ after = None) /\
  (status_ after = status_ request \/ status_ after = None) /\
  (matrix_ after = matrix_ request \/ matrix_ after = None) /\
  (options_ after = options_ request \/ options_ after = None \/
   options_ after = Some (options request)).
Proof.
  destruct (pbf_field_selector_ (options request)) as [sel|] eqn:Hsel.
  - rewrite (serializePbf_explicit _ _ Hsel). simpl.
    destruct sel as [[] [] [] [] []], (has_info request && is_service (info request));
      simpl; auto 10.
  - rewrite serializePbf_inferred
      by (unfold has_pbf_field_selector; rewrite Hsel;
          apply bool_decide_eq_false_2; by intros [? ?]).
    destruct (default_selection _) as [[[] [] [] [] []]|],
      (has_info request && is_service (info request)); simpl; auto 10.
Qed.

(** A request that is not a service request loses its options for good when
    they are not selected: after a call that returns, they are unset. *)
Theorem serializePbf_drops_options request (bytes : string) :
  fst (serializePbf request) = Returns bytes ->
  sel_options (pbf_field_selector (options request)) = false ->
  has_info request && is_service (info request) = false ->
  options_ (snd (serializePbf request)) = None.
Proof.
  intros Hret Hopt Hservice.
  destruct (pbf_field_selector_ (options request)) as [sel|] eqn:Hsel.
  - rewrite (serializePbf_explicit _ _ Hsel). simpl.
    unfold pbf_field_selector in Hopt. rewrite Hsel in Hopt. simpl in Hopt.
    by rewrite Hopt, Hservice.
  - assert (has_pbf_field_selector (options request) = false) as Hno
      by (unfold has_pbf_field_selector; rewrite Hsel;
          apply bool_decide_eq_false_2; by intros [? ?]).
    rewrite (serializePbf_inferred _ Hno) in Hret |- *.
    destruct (default_selection _) as [sel|]; simpl in *; [|done].
    by rewrite Hservice.
Qed.

Ltac step_serializePbf :=
  unfold serializePbf, bind, ret, get, throw, when, mutable_options_Swap,
    clear_trip, clear_directions, clear_status, clear_options, clear_matrix,
    modify, has_pbf_field_selector, pbf_field_selector, has_info, info, options
    in *;
  simpl in *.

(** Serialising twice is the same as serialising once: when the request
    carries a selection and keeps its options (they are selected, or it is
    a service request), a second call returns the same bytes and leaves the
    request as the first call left it. *)
Theorem serializePbf_idempotent request (sel : PbfFieldSelector) :
  pbf_field_selector_ (options request) = Some sel ->
  sel_options sel = true \/ has_info request && is_service (info request) = true ->
  serializePbf (snd (serializePbf request)) = serializePbf request.
Proof.
  destruct request as [[[act lr [sel'|]]|] t d st m i]; step_serializePbf;
    intros [= ->] Hkeep.
  destruct sel as [[] [] [] [] []], i as [[[]]|]; simpl in *;
    first [reflexivity | by destruct Hkeep].
Qed.

End Further.

(** * Properties of the OSRM-compatible waypoints *)

Section OsrmProperties.

Context `{Waypoints}.

Implicit Types (loc : Location) (locations : list Location).
Implicit Types (waypoints : list Value).

Lemma emplace_fresh (k : string) (v : Value) (m : gmap string Value) :
  m !! k = None -> osrm.emplace k v m = <[k:=v]> m.
Proof. unfold osrm.emplace. by intros ->. Qed.

Lemma emplace_present (k : string) (v : Value) (m : gmap string Value) :
  is_Some (m !! k) -> osrm.emplace k v m = m.
Proof. unfold osrm.emplace. by intros [? ->]. Qed.

Lemma waypoint_is_Some loc (is_tracepoint is_optimized : bool) :
  is_Some (osrm.waypoint loc is_tracepoint is_optimized) <->
  edges (loc_correlation loc) <> [].
Proof.
  unfold osrm.waypoint.
  destruct (edges (loc_correlation loc)) as [|e0 es]; simpl.
  - split; [by intros [? ?]|done].
  - split; [done|intros _; by eexists].
Qed.

(** The entry that [waypoints] writes for a location. *)
Lemma waypoints_loop_spec locations (is_tracepoint : bool) waypoints :
  osrm.waypoints_loop locations is_tracepoint waypoints =
  Some (waypoints ++
        ((fun loc =>
            from_option Vmap Vnull
              (osrm.waypoint loc is_tracepoint is_optimized_default)) <$> locations)).
Proof.
  revert waypoints. induction locations as [|loc locations IH]; intros waypoints; simpl.
  - by rewrite app_nil_r.
  - destruct (edges (loc_correlation loc)) as [|e0 es] eqn:Hedges; simpl.
    + rewrite IH. f_equal. rewrite <-app_assoc. simpl.
      unfold osrm.waypoint. by rewrite Hedges.
    + destruct (proj2 (waypoint_is_Some loc is_tracepoint is_optimized_default))
        as [w Hw]; [by rewrite Hedges|].
      rewrite Hw. simpl. rewrite IH. by rewrite <-app_assoc.
Qed.

(** [waypoints] never reads an edge that is not there: for every list of
    locations it returns one entry per location, in order, null for a
    location without a correlated edge and its waypoint object otherwise. *)
Theorem waypoints_one_per_location locations (is_tracepoint : bool) :
  exists out,
    osrm.waypoints locations is_tracepoint = Some out /\
    length out = length locations /\
    forall i loc, locations !! i = Some loc ->
      (edges (loc_correlation loc) = [] /\ out !! i = Some Vnull) \/
      (exists w,
         edges (loc_correlation loc) <> [] /\
         osrm.waypoint loc is_tracepoint is_optimized_default = Some w /\
         out !! i = Some (Vmap w)).
Proof.
  unfold osrm.waypoints. rewrite waypoints_loop_spec. simpl.
  eexists. split; [done|]. split; [by rewrite length_fmap|].
  intros i loc Hi. rewrite list_lookup_fmap, Hi. simpl.
  destruct (osrm.waypoint loc is_tracepoint is_optimized_default) as [w|] eqn:Hw.
  - right. exists w. split; [|done].
    apply (waypoint_is_Some loc is_tracepoint is_optimized_default). by rewrite Hw.
  - left. split; [|done].
    destruct (edges (loc_correlation loc)) as [|e0 es] eqn:Hedges; [done|].
    destruct (proj2 (waypoint_is_Some loc is_tracepoint is_optimized_default))
      as [w Hw']; [by rewrite Hedges|]. by rewrite Hw in Hw'.
Qed.

Lemma dom_emplace (k : string) (v : Value) (m : gmap string Value) :
  dom (osrm.emplace k v m) = {[k]} ∪ dom m.
Proof.
  unfold osrm.emplace. destruct (m !! k) as [x|] eqn:Hk.
  - symmetry. apply subseteq_union_1_L, singleton_subseteq_l, elem_of_dom. by eexists.
  - by rewrite dom_insert_L.
Qed.

Lemma lookup_emplace_ne (k k' : string) (v : Value) (m : gmap string Value) :
  k <> k' -> osrm.emplace k v m !! k' = m !! k'.
Proof.
  intros Hne. unfold osrm.emplace. destruct (m !! k); [done|].
  by rewrite lookup_insert_ne.
Qed.

Lemma lookup_emplace (k : string) (v : Value) (m : gmap string Value) :
  osrm.emplace k v m !! k = Some (default v (m !! k)).
Proof.
  unfold osrm.emplace. destruct (m !! k) as [x|] eqn:Hk; simpl; [done|].
  by rewrite lookup_insert_eq.
Qed.

(** The members of a waypoint object: the location, the name and the
    distance always; the three members of a trace point and the two of an
    optimized route as asked for.  The waypoint index of a trace point is
    null when the index is the largest 32-bit value and the index otherwise,
    and asking for the optimized members as well does not overwrite it. *)
Theorem waypoint_members loc (is_tracepoint is_optimized : bool) (w : gmap string Value) :
  osrm.waypoint loc is_tracepoint is_optimized = Some w ->
  dom w =
    {["location"; "name"; "distance"]} ∪
    (if is_tracepoint
     then {["alternatives_count"; "waypoint_index"; "matchings_index"]} else ∅) ∪
    (if is_optimized then {["trips_index"; "waypoint_index"]} else ∅) /\
  (is_tracepoint = true ->
   w !! "waypoint_index" =
   Some (if (waypoint_index (loc_correlation loc) =? osrm.uint32_max)%Z then Vnull
         else Vuint64 (osrm.to_uint64 (waypoint_index (loc_correlation loc))))) /\
  (is_tracepoint = false -> is_optimized = true ->
   w !! "waypoint_index" =
   Some (Vuint64 (osrm.to_uint64 (waypoint_index (loc_correlation loc))))).
Proof.
  unfold osrm.waypoint.
  destruct (edges (loc_correlation loc)) as [|e0 es]; simpl; [done|].
  intros [= <-]. split; [|split].
  - destruct is_tracepoint, is_optimized,
      (waypoint_index (loc_correlation loc) =? osrm.uint32_max)%Z;
      rewrite !dom_emplace, dom_empty_L; set_solver.
  - intros ->.
    destruct is_optimized,
      (waypoint_index (loc_correlation loc) =? osrm.uint32_max)%Z;
      repeat (rewrite lookup_emplace_ne by done);
      rewrite lookup_emplace;
      repeat (rewrite lookup_emplace_ne by done);
      rewrite ?lookup_emplace;
      repeat (rewrite lookup_emplace_ne by done);
      by rewrite lookup_empty.
  - intros -> ->.
    rewrite lookup_emplace.
    repeat (rewrite lookup_emplace_ne by done).
    by rewrite lookup_empty.
Qed.

Lemma mapM_app_option {A B} (f : A -> option B) (l1 l2 : list A) :
  mapM f (l1 ++ l2) = k1 ← mapM f l1; k2 ← mapM f l2; Some (k1 ++ k2).
Proof.
  induction l1 as [|x l1 IH]; simpl.
  - by destruct (mapM f l2).
  - destruct (f x) as [y|]; simpl; [|done]. rewrite IH.
    destruct (mapM f l1) as [k1|]; simpl; [|done].
    by destruct (mapM f l2).
Qed.

Lemma mapM_cons_option {A B} (f : A -> option B) (x : A) (l : list A) :
  mapM f (x :: l) = y ← f x; k ← mapM f l; Some (y :: k).
Proof. reflexivity. Qed.

Lemma waypoints_leg_loop_emit locations (i : nat) waypoints :
  i <> 0 \/ waypoints = [] ->
  osrm.waypoints_leg_loop locations i waypoints =
  (waypoints ++.) <$> mapM trip_waypoint locations.
Proof.
  revert i waypoints.
  induction locations as [|loc locations IH]; intros i waypoints Hi.
  - simpl. by rewrite app_nil_r.
  - rewrite mapM_cons_option. cbn [osrm.waypoints_leg_loop].
    assert ((i =? 0) && negb (length waypoints =? 0) = false) as ->.
    { destruct Hi as [Hi | ->]; [|by rewrite andb_false_r].
      by destruct i. }
    unfold trip_waypoint.
    destruct (osrm.waypoint loc false is_optimized_default) as [w|]; [|reflexivity].
    cbn [mbind option_bind fmap option_fmap option_map].
    rewrite IH by auto. unfold trip_waypoint.
    destruct (mapM _ locations) as [ws|]; [|reflexivity].
    cbn [mbind option_bind fmap option_fmap option_map].
    by rewrite <-app_assoc.
Qed.

Lemma waypoints_leg_loop_skip locations waypoints :
  waypoints <> [] ->
  osrm.waypoints_leg_loop locations 0 waypoints =
  (waypoints ++.) <$> mapM trip_waypoint (drop 1 locations).
Proof.
  intros Hne. destruct locations as [|loc locations]; simpl.
  - by rewrite app_nil_r.
  - destruct waypoints as [|v waypoints]; [done|]. simpl.
    rewrite drop_0. apply waypoints_leg_loop_emit. auto.
Qed.

Lemma waypoints_legs_loop_skip (ls : list TripLeg) waypoints :
  waypoints <> [] ->
  osrm.waypoints_legs_loop ls waypoints =
  (waypoints ++.) <$> mapM trip_waypoint (concat ((fun leg => drop 1 (location leg)) <$> ls)).
Proof.
  revert waypoints. induction ls as [|leg ls IH]; intros waypoints Hne; simpl.
  - by rewrite app_nil_r.
  - rewrite (waypoints_leg_loop_skip _ _ Hne), mapM_app_option.
    destruct (mapM trip_waypoint (drop 1 (location leg))) as [k1|]; simpl; [|done].
    rewrite IH by (by destruct waypoints).
    destruct (mapM trip_waypoint _) as [k2|]; simpl; [|done].
    by rewrite app_assoc.
Qed.

(** Consecutive legs share a location, which [waypoints(trip)] writes once:
    with a first leg that has a location, the waypoints are those of all
    locations of the first leg and of all but the first location of every
    later leg, in order.  The result exists when every location written has
    a correlated edge. *)
Theorem waypoints_trip_shared (t : Trip) (route : TripRoute) (leg : TripLeg)
    (rest : list TripLeg) :
  routes t !! 0 = Some route ->
  legs route = leg :: rest ->
  location leg <> [] ->
  let written :=
    location leg ++ concat ((fun leg => drop 1 (location leg)) <$> rest) in
  osrm.waypoints_trip t = mapM trip_waypoint written /\
  (forall out, osrm.waypoints_trip t = Some out ->
     length out =
     length (location leg) + sum_list ((fun leg => length (location leg) - 1) <$> rest)) /\
  (Forall (fun loc => edges (loc_correlation loc) <> []) written ->
   is_Some (osrm.waypoints_trip t)).
Proof.
  intros Hroute Hlegs Hfirst written.
  assert (osrm.waypoints_trip t = mapM trip_waypoint written) as Heq.
  { unfold osrm.waypoints_trip, written. rewrite Hroute. simpl. rewrite Hlegs. simpl.
    rewrite waypoints_leg_loop_emit by auto. rewrite mapM_app_option.
    destruct (mapM trip_waypoint (location leg)) as [k1|] eqn:Hk1; simpl; [|done].
    apply waypoints_legs_loop_skip.
    apply length_mapM in Hk1. destruct k1; [|done].
    by destruct (location leg). }
  split; [done|]. rewrite Heq. split.
  - intros out Hout. apply length_mapM in Hout. rewrite <-Hout.
    unfold written. rewrite length_app, length_concat. f_equal.
    rewrite <-!list_fmap_compose. f_equal. apply list_fmap_ext.
    intros i l _. simpl. by rewrite length_drop.
  - intros Hall. apply mapM_is_Some. eapply Forall_impl; [exact Hall|].
    intros loc Hloc. simpl. unfold trip_waypoint.
    destruct (proj2 (waypoint_is_Some loc false is_optimized_default) Hloc) as [w ->].
    by eexists.
Qed.

Lemma intermediate_waypoints_loop_spec locations (via_waypoints : list Value) :
  osrm.intermediate_waypoints_loop locations via_waypoints =
  via_waypoints ++
  (via_waypoint_of <$>
     filter (fun loc => loc_type loc = kVia \/ loc_type loc = kThrough) locations).
Proof.
  revert via_waypoints.
  induction locations as [|loc locations IH]; intros via_waypoints; simpl.
  - by rewrite app_nil_r.
  - rewrite filter_cons.
    destruct (decide (loc_type loc = kVia \/ loc_type loc = kThrough)) as [Hvia|Hno].
    + assert (bool_decide (loc_type loc = kVia) || bool_decide (loc_type loc = kThrough)
              = true) as ->.
      { destruct Hvia as [-> | ->]; by repeat case_bool_decide. }
      rewrite IH, <-app_assoc. reflexivity.
    + assert (bool_decide (loc_type loc = kVia) || bool_decide (loc_type loc = kThrough)
              = false) as ->.
      { repeat case_bool_decide; simpl; tauto. }
      apply IH.
Qed.

(** [intermediate_waypoints] writes one object per via or through location
    of the leg, in order, and nothing for any other location (the origin
    and the destination among them). *)
Theorem intermediate_waypoints_via_through (leg : TripLeg) :
  osrm.intermediate_waypoints leg =
  via_waypoint_of <$>
    filter (fun loc => loc_type loc = kVia \/ loc_type loc = kThrough) (location leg).
Proof. apply intermediate_waypoints_loop_spec. Qed.

End OsrmProperties.

(** * Properties of the legal speed limits *)

Module LegalSpeedProperties.
Import LegalSpeed.

Section LegalSpeedProperties.

Context `{Environment}.

(** ** Names of domains *)

Lemma stringToLegalSpeedDomain_not_listed (s : string) :
  stringToLegalSpeedDomain s = LegalSpeedDomain.kInvalid <->
  s ∉ domain_names.*1.
Proof.
  assert (NoDup (domain_names.*1)) as Hnodup
    by (apply (bool_decide_unpack _); by vm_compute).
  rewrite (not_elem_of_list_to_map (M:=gmap string) (A:=LegalSpeedDomain.t)).
  unfold stringToLegalSpeedDomain.
  destruct (list_to_map domain_names !! s) as [d'|] eqn:Hs0; [|done].
  split; [|done]. intros ->.
  apply (elem_of_list_to_map (M:=gmap string)) in Hs0; [|done].
  unfold domain_names in Hs0. rewrite !elem_of_cons, elem_of_nil in Hs0.
  intuition congruence.
Qed.

(** The table of [stringToLegalSpeedDomain] is one-to-one: a string gives a
    domain other than [kInvalid] exactly when the table pairs the two, two
    strings that give the same such domain are equal, and every string that
    is not in the table, in this exact spelling, gives [kInvalid]. *)
Theorem stringToLegalSpeedDomain_one_to_one (s : string) :
  (stringToLegalSpeedDomain s = LegalSpeedDomain.kInvalid <->
   s ∉ domain_names.*1) /\
  (forall d, d <> LegalSpeedDomain.kInvalid ->
     stringToLegalSpeedDomain s = d <-> (s, d) ∈ domain_names) /\
  (forall s', stringToLegalSpeedDomain s <> LegalSpeedDomain.kInvalid ->
     stringToLegalSpeedDomain s = stringToLegalSpeedDomain s' -> s = s').
Proof.
  assert (NoDup (domain_names.*1)) as Hnodup
    by (apply (bool_decide_unpack _); by vm_compute).
  assert (forall s0 d, d <> LegalSpeedDomain.kInvalid ->
            stringToLegalSpeedDomain s0 = d <-> (s0, d) ∈ domain_names) as Hpair.
  { intros s0 d Hd. rewrite (elem_of_list_to_map (M:=gmap string)) by done.
    unfold stringToLegalSpeedDomain.
    destruct (list_to_map domain_names !! s0) as [d'|] eqn:Hs0.
    - split; [by intros ->|by intros [= ->]].
    - split; [by intros <-|done]. }
  split; [apply stringToLegalSpeedDomain_not_listed|]. split; [apply Hpair|].
  intros s' Hvalid Heq.
  pose proof (proj1 (Hpair s _ Hvalid) eq_refl) as Hs.
  rewrite Heq in Hvalid.
  pose proof (proj1 (Hpair s' _ Hvalid) eq_refl) as Hs'.
  rewrite <-Heq in Hs'.
  unfold domain_names in Hs, Hs'.
  rewrite !elem_of_cons, elem_of_nil in Hs, Hs'.
  destruct (stringToLegalSpeedDomain s); intuition congruence.
Qed.

(** ** Speeds as text *)

Lemma leading_digits_acc (s : string) (n : nat) :
  leading_digits s n = n + leading_digits s 0.
Proof.
  revert n. induction s as [|c s IH]; intros n; simpl; [lia|].
  destruct (isdigit c); [|lia]. rewrite (IH (S n)), (IH 1). lia.
Qed.

Lemma leading_digits_app (ds rest : string) :
  all_digits ds = true -> no_leading_digit rest = true ->
  leading_digits (ds +:+ rest) 0 = String.length ds.
Proof.
  intros Hds Hrest. induction ds as [|c ds IH]; simpl in *.
  - destruct rest as [|c rest]; simpl in *; [done|].
    by destruct (isdigit c).
  - apply andb_true_iff in Hds as [-> Hds].
    rewrite leading_digits_acc, IH by done. lia.
Qed.

Lemma substring_app_length (a b : string) :
  String.substring 0 (String.length a) (a +:+ b) = a.
Proof.
  induction a as [|c a IH]; simpl.
  - by destruct b.
  - by rewrite IH.
Qed.

Lemma leading_digits_no_digit (s : string) :
  no_leading_digit s = true -> leading_digits s 0 = 0.
Proof. destruct s as [|c s]; simpl; [done|]. by destruct (isdigit c). Qed.

Lemma stoi_digits (ds : string) :
  ds <> "" -> all_digits ds = true ->
  stoi ds =
  if (digits_value ds 0 >? INT_MAX)%Z then Raised (out_of_range "stoi")
  else Done (digits_value ds 0).
Proof.
  intros Hne Hds. unfold stoi.
  pose proof (leading_digits_app ds "" Hds eq_refl) as Hn.
  pose proof (substring_app_length ds "") as Hsub.
  assert (ds +:+ "" = ds) as Happ.
  { clear. induction ds as [|c ds IH]; [done|].
    change (String c ds +:+ "") with (String c (ds +:+ "")). by rewrite IH. }
  rewrite Happ in Hn, Hsub. rewrite Hn, Hsub.
  destruct ds; [done|]. reflexivity.
Qed.

(** A speed that starts with decimal digits: the digits up to the first
    other character are read as a number, whatever follows them.  A number
    beyond the largest [int] raises [out_of_range]; otherwise the number is
    the speed, converted from miles per hour when the text ends in "mph". *)
Theorem parseOSMSpeedString_leading_digits (ds rest : string) :
  ds <> "" ->
  all_digits ds = true ->
  no_leading_digit rest = true ->
  parseOSMSpeedString (ds +:+ rest) =
  if (digits_value ds 0 >? INT_MAX)%Z then Raised (out_of_range "stoi")
  else Done (if mph_suffix (ds +:+ rest)
             then mph_to_kph (digits_value ds 0)
             else digits_value ds 0).
Proof.
  intros Hne Hds Hrest. unfold parseOSMSpeedString.
  rewrite (leading_digits_app _ _ Hds Hrest), substring_app_length.
  assert ((String.length (ds +:+ rest) =? 0) = false) as ->.
  { destruct ds; [done|]. reflexivity. }
  assert ((String.length ds <? 1) = false) as ->.
  { destruct ds; [done|]. reflexivity. }
  rewrite (stoi_digits _ Hne Hds).
  by destruct (digits_value ds 0 >? INT_MAX)%Z.
Qed.

(** A speed that does not start with a decimal digit never raises an
    exception: the empty text is 0, "walk" is 10, and any other text is 0,
    or what the conversion makes of 0 when the text ends in "mph". *)
Theorem parseOSMSpeedString_no_number (s : string) :
  no_leading_digit s = true ->
  (s = "" -> parseOSMSpeedString s = Done 0%Z) /\
  (s = "walk" -> parseOSMSpeedString s = Done 10%Z) /\
  (s <> "walk" -> mph_suffix s = false -> parseOSMSpeedString s = Done 0%Z) /\
  (mph_suffix s = true -> parseOSMSpeedString s = Done (mph_to_kph 0)) /\
  (forall e, parseOSMSpeedString s <> Raised e) /\
  parseOSMSpeedString s <> Aborted.
Proof.
  intros Hs. unfold parseOSMSpeedString.
  rewrite (leading_digits_no_digit _ Hs). simpl.
  destruct (String.eqb_spec s "walk") as [-> | Hwalk].
  { repeat split; try done. }
  destruct (String.length s =? 0) eqn:Hlen.
  { destruct s; [|done]. repeat split; try done. }
  destruct (mph_suffix s) eqn:Hmph; repeat split; try done.
  intros ->. done.
Qed.

(** ** The limits of a country or state *)

Lemma fallback_assign (ls : SimpleLegalSpeed) (d : LegalSpeedDomain.t) (a t : Z) :
  fallback (assign ls d a t) = fallback ls.
Proof. by destruct d. Qed.

Lemma SimpleLegalSpeed_entry_Done (ls ls' : SimpleLegalSpeed) (entry : rj) :
  SimpleLegalSpeed_entry ls entry = Done ls' ->
  exists d a t, ls' = assign ls d a t.
Proof.
  unfold SimpleLegalSpeed_entry, result_bind. intros Hdone.
  repeat match type of Hdone with
         | match ?c with _ => _ end = _ => destruct c; try discriminate Hdone
         end.
  all: injection Hdone as <-; eauto.
Qed.

(** The fallback limits are never stored: whatever the array holds, an
    entry named "fallback" or without a name included, the fallback member
    of the object built is as it was before the constructor ran. *)
Theorem SimpleLegalSpeed_fallback_never_assigned (arr : list rj) (ls : SimpleLegalSpeed) :
  SimpleLegalSpeed_of arr = Done ls ->
  fallback ls = fallback indeterminate.
Proof.
  unfold SimpleLegalSpeed_of. generalize indeterminate as ls0.
  induction arr as [|entry arr IH]; intros ls0; simpl.
  - by intros [= ->].
  - destruct (SimpleLegalSpeed_entry ls0 entry) as [ls1| |] eqn:Hentry; simpl; [|done..].
    intros Hrest. rewrite (IH _ Hrest).
    destruct (SimpleLegalSpeed_entry_Done _ _ _ Hentry) as (d & a & t & ->).
    apply fallback_assign.
Qed.



(** ** The table of all countries and states *)



(** ** Updating the speeds of an edge *)

Context {DirectedEdge : Type} `{!DirectedEdgeOps DirectedEdge}.

Implicit Types (e : DirectedEdge) (ls : SimpleLegalSpeed).
Implicit Types (legal_speeds : gmap string SimpleLegalSpeed).

(** [update_speed] leaves the edge alone and returns false when both of its
    speeds are tagged, and when the table has an entry neither for the
    country nor for the country and state. *)
Theorem update_speed_untouched legal_speeds e (density : Z)
    (country_code state_code : string) :
  (speed_type e = SpeedType.kTagged /\ truck_speed_type e = SpeedType.kTagged) \/
  (legal_speeds !! country_code = None /\
   legal_speeds !! (country_code +:+ "-" +:+ state_code) = None) ->
  update_speed legal_speeds e density country_code state_code = (false, e).
Proof.
  unfold update_speed. intros [[Hs Ht] | [Hc Hcs]].
  - by rewrite Hs, Ht, !bool_decide_eq_true_2.
  - destruct (_ && _); [done|]. simpl. unfold update_speed_code.
    by rewrite Hc, Hcs.
Qed.

Lemma apply_limits_twice (category density_limits : VehicleSpeeds) (s t : Z) :
  apply_limits category (apply_limits density_limits (s, t)) =
  (first_nonzero [auto_ category; auto_ density_limits] s,
   first_nonzero
     [truck_ category; auto_ category; truck_ density_limits; auto_ density_limits] t).
Proof.
  unfold apply_limits. simpl.
  by destruct (auto_ category =? 0)%Z, (truck_ category =? 0)%Z,
    (auto_ density_limits =? 0)%Z, (truck_ density_limits =? 0)%Z.
Qed.

Lemma apply_limits_once (density_limits : VehicleSpeeds) (s t : Z) :
  apply_limits density_limits (s, t) =
  (first_nonzero [auto_ density_limits] s,
   first_nonzero [truck_ density_limits; auto_ density_limits] t).
Proof.
  unfold apply_limits. simpl.
  by destruct (auto_ density_limits =? 0)%Z, (truck_ density_limits =? 0)%Z.
Qed.

(** The speeds that [update_speed] computes for an edge follow an order of
    precedence in which a limit of zero stands for no limit.  The limits of
    the road come first: those of motorways for an edge of motorway class,
    else those of living streets, else those of trunk roads, else those of
    service roads; then the urban limits when the density is above
    [kMaxRuralDensity] and the rural ones otherwise.  The speed is the first
    limit for cars in this order, and the truck speed the first of the
    limit for trucks and the limit for cars of the road, then of the
    density; when all are zero the edge keeps the speed it has. *)
Theorem legal_limits_precedence ls e (density : Z) :
  let by_density := if (density >? kMaxRuralDensity)%Z then urban ls else rural ls in
  let by_road road :=
    (first_nonzero [auto_ road; auto_ by_density] (speed e),
     first_nonzero [truck_ road; auto_ road; truck_ by_density; auto_ by_density]
       (truck_speed e)) in
  (classification e = RoadClass.kMotorway ->
   legal_limits ls e density = by_road (motorway ls)) /\
  (classification e <> RoadClass.kMotorway -> use e = Use.kLivingStreet ->
   legal_limits ls e density = by_road (living_street ls)) /\
  (use e <> Use.kLivingStreet -> classification e = RoadClass.kTrunk ->
   legal_limits ls e density = by_road (trunk ls)) /\
  (classification e <> RoadClass.kMotorway -> classification e <> RoadClass.kTrunk ->
   use e = Use.kServiceRoad ->
   legal_limits ls e density = by_road (service ls)) /\
  (classification e <> RoadClass.kMotorway -> classification e <> RoadClass.kTrunk ->
   use e <> Use.kLivingStreet -> use e <> Use.kServiceRoad ->
   legal_limits ls e density =
   (first_nonzero [auto_ by_density] (speed e),
    first_nonzero [truck_ by_density; auto_ by_density] (truck_speed e))).
Proof.
  intros by_density by_road. unfold legal_limits.
  fold by_density.
  assert ((if (density >? kMaxRuralDensity)%Z
           then apply_limits (urban ls) (speed e, truck_speed e)
           else apply_limits (rural ls) (speed e, truck_speed e)) =
          apply_limits by_density (speed e, truck_speed e)) as ->.
  { unfold by_density. by destruct (density >? kMaxRuralDensity)%Z. }
  unfold by_road.
  repeat split; intros; repeat case_bool_decide; try congruence;
    by rewrite ?apply_limits_twice, ?apply_limits_once.
Qed.

End LegalSpeedProperties.
End LegalSpeedProperties.

(** * The further properties at the sample instances *)

Section FurtherExamples.

#[local] Existing Instance Sample.payloads.
#[local] Existing Instance Sample.collaborators.
#[local] Existing Instance SampleWaypoints.waypoints_instance.

Import Sample SampleWaypoints.

Example waypoints_trip_two_legs :
  length <$> osrm.waypoints_trip trip_two_legs = Some 5.
Proof. reflexivity. Qed.

Lemma route_references_frame_witness :
  exists out,
    route_references {["summary" := Jstring "s"]} (mkTripRoute [leg_regular])
      (options request_route) = Some out /\
    out !! "summary" = Some (Jstring "s").
Proof.
  destruct (route_references {["summary" := Jstring "s"]} (mkTripRoute [leg_regular])
              (options request_route)) as [out|] eqn:Hout; [|discriminate Hout].
  exists out. split; [done|].
  destruct (route_references_frame _ _ _ _ Hout) as [Hother _].
  by rewrite (Hother "summary").
Defined.

Lemma route_references_openlr_agree_witness :
  openlr request_route 0 [] =
  Some ([ev_Key "linear_references"; ev_StartArray] ++
        (ev_String <$> ["ab"; "bc"]) ++ [ev_EndArray]).
Proof.
  destruct (route_references_openlr_agree request_route 0 (mkTripRoute [leg_regular])
              ["ab"; "bc"] eq_refl) as [Hagree _].
  by apply Hagree.
Defined.

Lemma serializePbf_drops_options_witness :
  options_ (snd (serializePbf request_attributes)) = None.
Proof.
  by apply (serializePbf_drops_options request_attributes "T").
Defined.

Lemma serializePbf_idempotent_witness :
  serializePbf (snd (serializePbf request_selected)) = serializePbf request_selected.
Proof.
  apply (serializePbf_idempotent request_selected
           (mkPbfFieldSelector false false true false false)); [reflexivity|].
  by right.
Defined.

Lemma waypoint_members_witness :
  exists w,
    osrm.waypoint tracepoint true true = Some w /\
    w !! "waypoint_index" = Some Vnull.
Proof.
  destruct (osrm.waypoint tracepoint true true) as [w|] eqn:Hw; [|discriminate Hw].
  exists w. split; [done|].
  destruct (waypoint_members _ _ _ _ Hw) as (_ & Hindex & _).
  by rewrite Hindex.
Defined.

Lemma waypoints_trip_shared_witness :
  osrm.waypoints_trip trip_two_legs =
  mapM trip_waypoint
    (location leg_regular ++ drop 1 (location leg_gap)).
Proof.
  destruct (waypoints_trip_shared trip_two_legs (mkTripRoute [leg_regular; leg_gap])
              leg_regular [leg_gap] eq_refl eq_refl) as (Heq & _ & _).
  - discriminate.
  - rewrite Heq. reflexivity.
Defined.

End FurtherExamples.

Module LegalSpeedExamples.
Import LegalSpeed LegalSpeedProperties.

Section LegalSpeedExamples.

#[local] Existing Instance sample_environment.
#[local] Existing Instance sample_edge_ops.

Example parseOSMSpeedString_50 : parseOSMSpeedString "50" = Done 50%Z.
Proof. reflexivity. Qed.

Example parseOSMSpeedString_kmh : parseOSMSpeedString "30 km/h" = Done 30%Z.
Proof. reflexivity. Qed.

Example parseOSMSpeedString_too_large :
  parseOSMSpeedString "2147483648" = Raised (out_of_range "stoi").
Proof. reflexivity. Qed.

Example SimpleLegalSpeedAssigner_missing_file :
  SimpleLegalSpeedAssigner (Some "missing.json") = Done ∅.
Proof. reflexivity. Qed.

Lemma parseOSMSpeedString_leading_digits_witness :
  parseOSMSpeedString "50 mph" = Done 80%Z.
Proof.
  by rewrite (parseOSMSpeedString_leading_digits "50" " mph").
Defined.

Lemma parseOSMSpeedString_no_number_witness :
  parseOSMSpeedString "walk" = Done 10%Z.
Proof.
  destruct (parseOSMSpeedString_no_number "walk" eq_refl) as (_ & Hwalk & _).
  by apply Hwalk.
Defined.

Lemma SimpleLegalSpeed_fallback_never_assigned_witness :
  exists ls,
    SimpleLegalSpeed_of sample_array = Done ls /\
    fallback ls = mkVehicleSpeeds 0 0.
Proof.
  destruct (SimpleLegalSpeed_of sample_array) as [ls| |] eqn:Hls;
    [|discriminate Hls..].
  exists ls. split; [done|].
  by rewrite (SimpleLegalSpeed_fallback_never_assigned _ _ Hls).
Defined.




Lemma update_speed_untouched_witness :
  update_speed {["DE" := sample_speeds]} tagged_edge 10 "DE" "BY" = (false, tagged_edge).
Proof.
  apply update_speed_untouched. by left.
Defined.

End LegalSpeedExamples.
End LegalSpeedExamples.

(** * Properties of the incident members *)

Module IncidentProperties.
Import Incidents.

Section IncidentProperties.

Context `{IncidentText}.








#[local] Instance append_inj (p : string) : Inj (=) (=) (String.append p).
Proof.
  intros a b. induction p as [|c p IH]; simpl; [done|]. intros [= Heq]. by apply IH.
Qed.


End IncidentProperties.

Section IncidentExamples.

#[local] Existing Instance sample_incident_text.

Example serializeIncidentProperties_sample :
  serializeIncidentProperties [] sample_incident 4 (-1) "primary" "" =
  [sax_Key "id"; sax_String "7"; sax_Key "type"; sax_String "CONSTRUCTION";
   sax_Key "iso_3166_1_alpha2"; sax_String "DE";
   sax_Key "description"; sax_String "roadworks";
   sax_Key "start_time"; sax_String "1970-01-01T00:01:40Z";
   sax_Key "impact"; sax_String "LOW";
   sax_Key "alertc_codes"; sax_StartArray; sax_Uint64 701; sax_EndArray;
   sax_Key "lanes_blocked"; sax_StartArray; sax_String "1"; sax_String "2"; sax_EndArray;
   sax_Key "num_lanes_blocked"; sax_Int 2;
   sax_Key "closed"; sax_Bool true;
   sax_Key "class"; sax_String "primary";
   sax_Key "congestion"; sax_StartObject; sax_Key "value"; sax_Int 3; sax_EndObject;
   sax_Key "geometry_index_start"; sax_Int 4].
Proof. reflexivity. Qed.

End IncidentExamples.

End IncidentProperties.
